(** * The proxy coordinator of open-ethereum-pool-pps (proxy/proxy.go)

    A shallow embedding of [proxy.go]: the upstream health sweep
    ([checkUpstreams], [rpc]), the sick counter ([markSick], [isSick],
    [markOk]), the four timer loops started by [NewProxy] (work-difficulty
    cleanup, block refresh, upstream check, state update), the start-up
    validation of [NewProxy] and the notification handler of [Start].

    Conventions.
    - Go's [int32] and [int64] are [Z] with the two's-complement wrap written
      out ([int32], [int64] below); [float64] is Rocq's binary64 [float].
    - A slice is a [list]; indexing it out of range panics, which the model
      renders as [None].
    - [map[string]*WorkDiff] is a finite map from keys to addresses together
      with a store from addresses to records, so that two keys may share a
      record exactly as two Go pointers may.
    - Calls into other packages (policy, rpc, storage, util, net/http, log)
      are either oracles supplied to the model or events in a trace. *)

From Stdlib Require Import ZArith Ascii String Floats.PrimFloat.
From stdpp Require Import gmap strings list fin_maps.

Local Open Scope Z_scope.

(** ** Machine integers and slices *)

(** Conversion to [int32]: keep the low 32 bits, read as two's complement. *)
Definition int32 (z : Z) : Z := (z + 2 ^ 31) mod 2 ^ 32 - 2 ^ 31.

(** Conversion to [int64]: keep the low 64 bits, read as two's complement. *)
Definition int64 (z : Z) : Z := (z + 2 ^ 63) mod 2 ^ 64 - 2 ^ 63.

(** [xs[i]] for a signed index: a negative or too large index panics. *)
Definition slice_index {A} (xs : list A) (i : Z) : option A :=
  if i <? 0 then None else xs !! Z.to_nat i.

(** ** Data model *)

(** proxy.go, lines 20-24. *)
Record WorkDiff := mkWorkDiff {
  Difficulty : Z;
  PassDel : bool;
  IsDel : bool
}.

(** The fields of [rpc.RPCClient] that proxy.go reads. *)
Record RPCClient := mkRPCClient {
  Name : string;
  Url : string;
  Timeout : string
}.

(** Modelled from the spec: [BlockTemplate] is declared in another file of
    the package; proxy.go reads its [Height] and [Difficulty], which the spec
    gives as integers. *)
Record BlockTemplate := mkBlockTemplate {
  Height : Z;
  TDifficulty : Z
}.

(** The configuration, with the fields proxy.go reads ([Config] itself is
    declared in another file of the package).  [cfg.Proxy.Stratum.*] and
    [cfg.Proxy.*] are flattened with a prefix. *)
Record Upstream := mkUpstream {
  UName : string;
  UUrl : string;
  UTimeout : string
}.

Record Config := mkConfig {
  CName : string;
  CUpstream : list Upstream;
  UpstreamCheckInterval : string;
  Proxy_Listen : string;
  Proxy_Difficulty : Z;
  Proxy_HashrateExpiration : string;
  Proxy_BlockRefreshInterval : string;
  Proxy_CleanInterval : string;
  Proxy_StateUpdateInterval : string;
  Proxy_HealthCheck : bool;
  Proxy_MaxFails : Z;
  Stratum_Enabled : bool;
  Stratum_Protocol : string;
  Stratum_MinDiffFloat : float;
  Stratum_MaxDiffFloat : float;
  Stratum_NonceSize : Z
}.

(** Addresses of [WorkDiff] records. *)
Abbreviation addr := positive.

(** proxy.go, lines 26-50, without the locks and without the handles of the
    collaborators (backend, policy, job queue).  [workDiff] holds the
    pointers, [workStore] the records they point to; [sessions] only
    records whether the session set was allocated. *)
Record ProxyServer := mkProxyServer {
  config : Config;
  blockTemplate : option BlockTemplate;
  upstream : Z;
  upstreams : list RPCClient;
  diff : string;
  hashrateExpiration : Z;
  failsCount : Z;
  sessions : bool;
  nonceSize : Z;
  workDiff : gmap string addr;
  workStore : gmap addr WorkDiff;
  minDiffFloat : float;
  maxDiffFloat : float
}.

Definition set_upstream (s : ProxyServer) (i : Z) : ProxyServer :=
  mkProxyServer (config s) (blockTemplate s) i (upstreams s) (diff s)
    (hashrateExpiration s) (failsCount s) (sessions s) (nonceSize s)
    (workDiff s) (workStore s) (minDiffFloat s) (maxDiffFloat s).

Definition set_failsCount (s : ProxyServer) (n : Z) : ProxyServer :=
  mkProxyServer (config s) (blockTemplate s) (upstream s) (upstreams s) (diff s)
    (hashrateExpiration s) n (sessions s) (nonceSize s)
    (workDiff s) (workStore s) (minDiffFloat s) (maxDiffFloat s).

Definition set_upstreams (s : ProxyServer) (us : list RPCClient) : ProxyServer :=
  mkProxyServer (config s) (blockTemplate s) (upstream s) us (diff s)
    (hashrateExpiration s) (failsCount s) (sessions s) (nonceSize s)
    (workDiff s) (workStore s) (minDiffFloat s) (maxDiffFloat s).

Definition set_hashrateExpiration (s : ProxyServer) (d : Z) : ProxyServer :=
  mkProxyServer (config s) (blockTemplate s) (upstream s) (upstreams s) (diff s)
    d (failsCount s) (sessions s) (nonceSize s)
    (workDiff s) (workStore s) (minDiffFloat s) (maxDiffFloat s).

Definition set_sessions (s : ProxyServer) (b : bool) : ProxyServer :=
  mkProxyServer (config s) (blockTemplate s) (upstream s) (upstreams s) (diff s)
    (hashrateExpiration s) (failsCount s) b (nonceSize s)
    (workDiff s) (workStore s) (minDiffFloat s) (maxDiffFloat s).

Definition set_nonceSize (s : ProxyServer) (n : Z) : ProxyServer :=
  mkProxyServer (config s) (blockTemplate s) (upstream s) (upstreams s) (diff s)
    (hashrateExpiration s) (failsCount s) (sessions s) n
    (workDiff s) (workStore s) (minDiffFloat s) (maxDiffFloat s).

Definition set_maxDiffFloat (s : ProxyServer) (x : float) : ProxyServer :=
  mkProxyServer (config s) (blockTemplate s) (upstream s) (upstreams s) (diff s)
    (hashrateExpiration s) (failsCount s) (sessions s) (nonceSize s)
    (workDiff s) (workStore s) (minDiffFloat s) x.

Definition set_blockTemplate (s : ProxyServer) (t : option BlockTemplate)
    : ProxyServer :=
  mkProxyServer (config s) t (upstream s) (upstreams s) (diff s)
    (hashrateExpiration s) (failsCount s) (sessions s) (nonceSize s)
    (workDiff s) (workStore s) (minDiffFloat s) (maxDiffFloat s).

Definition set_work (s : ProxyServer) (m : gmap string addr)
    (h : gmap addr WorkDiff) : ProxyServer :=
  mkProxyServer (config s) (blockTemplate s) (upstream s) (upstreams s) (diff s)
    (hashrateExpiration s) (failsCount s) (sessions s) (nonceSize s)
    m h (minDiffFloat s) (maxDiffFloat s).

(** ** Upstream selection *)

(** [rpc] (lines 221-224): load the index, index the slice. *)
Definition rpc (s : ProxyServer) : option RPCClient :=
  slice_index (upstreams s) (upstream s).

(** The loop of [checkUpstreams] (lines 230-235).  [Check i] is what the
    [Check()] probe of upstream [i] answers during this sweep; the probe is
    made for every upstream, healthy candidate found or not. *)
Fixpoint checkLoop (Check : nat → bool) (i : nat) (vs : list RPCClient)
    (candidate : Z) (backup : bool) : Z * bool :=
  match vs with
  | [] => (candidate, backup)
  | _ :: vs' =>
      if Check i && negb backup
      then checkLoop Check (S i) vs' (int32 (Z.of_nat i)) true
      else checkLoop Check (S i) vs' candidate backup
  end.

(** Lines 227-235: the candidate the sweep settles on. *)
Definition sweepCandidate (Check : nat → bool) (s : ProxyServer) : Z :=
  fst (checkLoop Check 0 (upstreams s) 0 false).

(** [checkUpstreams] (lines 226-241).  The log line indexes the slice with
    the candidate before the store, so an index out of range panics. *)
Definition checkUpstreams (Check : nat → bool) (s : ProxyServer)
    : option ProxyServer :=
  let candidate := sweepCandidate Check s in
  if bool_decide (upstream s ≠ candidate) then
    match slice_index (upstreams s) candidate with
    | Some _ => Some (set_upstream s candidate)
    | None => None
    end
  else Some s.

(** *** Sweeps interleaved with [rpc()] calls

    [checkUpstreams] runs in the one goroutine of the check timer; [rpc()]
    is called from any goroutine.  The upstream index is touched by a single
    atomic load in [rpc()] and a single atomic store in [checkUpstreams], so
    an interleaving is a sequence of the atomic steps below: the sweep is
    split where another goroutine can come in between, after the comparison
    of line 237 and before the indexing and the store of lines 238-239. *)

Inductive Action :=
  | ActScan (Check : nat → bool)   (* lines 227-237 *)
  | ActStore                       (* lines 238-239 *)
  | ActRpc.                        (* lines 222-223, in any goroutine *)

(** [pending] is the candidate the sweeping goroutine is about to store. *)
Record Machine := mkMachine {
  srv : ProxyServer;
  pending : option Z
}.

Definition step (a : Action) (m : Machine) : option Machine :=
  match a, pending m with
  | ActScan Check, None =>
      let candidate := sweepCandidate Check (srv m) in
      if bool_decide (upstream (srv m) ≠ candidate)
      then Some (mkMachine (srv m) (Some candidate))
      else Some m
  | ActScan _, Some _ => Some m    (* the sweeper is between scan and store *)
  | ActStore, Some candidate =>
      match slice_index (upstreams (srv m)) candidate with
      | Some _ => Some (mkMachine (set_upstream (srv m) candidate) None)
      | None => None
      end
  | ActStore, None => Some m
  | ActRpc, _ =>
      match rpc (srv m) with
      | Some _ => Some m
      | None => None
      end
  end.

(** Run a schedule; [None] as soon as one step panics. *)
Fixpoint run (acts : list Action) (m : Machine) : option Machine :=
  match acts with
  | [] => Some m
  | a :: acts' =>
      match step a m with
      | Some m' => run acts' m'
      | None => None
      end
  end.

(** What every reachable state of the interleaving satisfies: the stored
    index and the candidate waiting to be stored are indices of the slice. *)
Definition index_ok (us : list RPCClient) (m : Machine) : Prop :=
  upstreams (srv m) = us ∧
  0 ≤ upstream (srv m) < Z.of_nat (length us) ∧
  ∀ c, pending m = Some c → 0 ≤ c < Z.of_nat (length us).

(** ** The sick counter (lines 252-266) *)

Definition markSick (s : ProxyServer) : ProxyServer :=
  set_failsCount s (int64 (failsCount s + 1)).

Definition isSick (s : ProxyServer) : bool :=
  let x := failsCount s in
  if Proxy_HealthCheck (config s) && (Proxy_MaxFails (config s) <=? x)
  then true
  else false.

Definition markOk (s : ProxyServer) : ProxyServer :=
  set_failsCount s 0.

(** ** The block template cache (lines 243-250) *)

Definition currentBlockTemplate (s : ProxyServer) : option BlockTemplate :=
  match blockTemplate s with
  | Some t => Some t
  | None => None
  end.

(** ** The cleanup sweep over [workDiff] (lines 137-145) *)

Abbreviation WorkState := (gmap string addr * gmap addr WorkDiff)%type.

Definition clearPassDel (v : WorkDiff) : WorkDiff :=
  mkWorkDiff (Difficulty v) false (IsDel v).

(** One iteration of the [range] loop, at key [k].  A key that is no longer
    in the map is not produced by [range]; reading a field through a nil
    pointer panics ([None]). *)
Definition sweepEntry (k : string) (st : WorkState) : option WorkState :=
  match st.1 !! k with
  | None => Some st
  | Some a =>
      match st.2 !! a with
      | None => None
      | Some v =>
          if IsDel v && negb (PassDel v) then Some (delete k st.1, st.2)
          else if IsDel v then Some (st.1, <[a := clearPassDel v]> st.2)
          else Some st
      end
  end.

(** The loop, in the order [ks] in which [range] happens to produce the
    keys; Go does not fix that order. *)
Fixpoint cleanSweepIn (ks : list string) (st : WorkState) : option WorkState :=
  match ks with
  | [] => Some st
  | k :: ks' =>
      match sweepEntry k st with
      | Some st' => cleanSweepIn ks' st'
      | None => None
      end
  end.

(** [ks] is an order in which [range] can produce the keys of [m]: each key
    of the map once. *)
Definition enumerates (ks : list string) (m : gmap string addr) : Prop :=
  NoDup ks ∧ list_to_set ks = dom m.

(** The sweep in one particular order, for running the model. *)
Definition cleanSweep (st : WorkState) : option WorkState :=
  cleanSweepIn (map_to_list st.1).*1 st.

(** No pointer stored in the map is nil. *)
Definition store_closed (m : gmap string addr) (h : gmap addr WorkDiff) : Prop :=
  map_Forall (λ _ a, is_Some (h !! a)) m.

(** The record of key [k] is not the record of any other key. *)
Definition unshared (m : gmap string addr) (k : string) : Prop :=
  map_Forall (λ k' a, m !! k = Some a → k' = k) m.

(** The entry of key [k], read through its pointer. *)
Definition entry (st : WorkState) (k : string) : option WorkDiff :=
  a ← st.1 !! k; st.2 !! a.

(** What a sweep may do to a record: nothing, or clear [PassDel] of a
    record marked [IsDel]. *)
Definition aged (v v' : WorkDiff) : Prop :=
  v' = v ∨ (IsDel v = true ∧ v' = clearPassDel v).

(** What a sweep may do to the map and the store: keys are only removed,
    never added or redirected; records are only aged. *)
Definition sweeps_to (st st' : WorkState) : Prop :=
  st'.1 ⊆ st.1 ∧
  ∀ a v, st.2 !! a = Some v → ∃ v', st'.2 !! a = Some v' ∧ aged v v'.

(** ** The timer loops of [NewProxy] (lines 120-188) *)

(** What the four goroutines share: the intervals and, for each timer, the
    duration it is currently armed with (nanoseconds). *)
Record Timers := mkTimers {
  refreshIntv : Z;
  cleanIntv : Z;
  checkIntv : Z;
  stateUpdateIntv : Z;
  refreshTimer : Z;
  cleanTimer : Z;
  checkTimer : Z;
  stateUpdateTimer : Z
}.

Definition reset_cleanTimer (t : Timers) (d : Z) : Timers :=
  mkTimers (refreshIntv t) (cleanIntv t) (checkIntv t) (stateUpdateIntv t)
    (refreshTimer t) d (checkTimer t) (stateUpdateTimer t).

Definition reset_refreshTimer (t : Timers) (d : Z) : Timers :=
  mkTimers (refreshIntv t) (cleanIntv t) (checkIntv t) (stateUpdateIntv t)
    d (cleanTimer t) (checkTimer t) (stateUpdateTimer t).

Definition reset_checkTimer (t : Timers) (d : Z) : Timers :=
  mkTimers (refreshIntv t) (cleanIntv t) (checkIntv t) (stateUpdateIntv t)
    (refreshTimer t) (cleanTimer t) d (stateUpdateTimer t).

Definition reset_stateUpdateTimer (t : Timers) (d : Z) : Timers :=
  mkTimers (refreshIntv t) (cleanIntv t) (checkIntv t) (stateUpdateIntv t)
    (refreshTimer t) (cleanTimer t) (checkTimer t) d.

(** One turn of the cleanup loop (lines 136-146), entered when the clean
    timer fires: the sweep in the order [ks], then the reset. *)
Definition cleanTick (ks : list string) (t : Timers) (s : ProxyServer)
    : option (Timers * ProxyServer) :=
  match cleanSweepIn ks (workDiff s, workStore s) with
  | Some (m, h) => Some (reset_cleanTimer t (refreshIntv t), set_work s m h)
  | None => None
  end.

(** [n] turns of the cleanup loop.  [orders] gives the [range] order of each
    turn.  The result lists, for each turn, how long the timer was armed for
    when it fired. *)
Fixpoint cleanLoop (orders : list (list string)) (t : Timers) (s : ProxyServer)
    : option (list Z * Timers * ProxyServer) :=
  match orders with
  | [] => Some ([], t, s)
  | ks :: orders' =>
      let waited := cleanTimer t in
      match cleanTick ks t s with
      | Some (t', s') =>
          match cleanLoop orders' t' s' with
          | Some (ws, t'', s'') => Some (waited :: ws, t'', s'')
          | None => None
          end
      | None => None
      end
  end.

(** One turn of the check loop (lines 164-166). *)
Definition checkTick (Check : nat → bool) (t : Timers) (s : ProxyServer)
    : option (Timers * ProxyServer) :=
  match checkUpstreams Check s with
  | Some s' => Some (reset_checkTimer t (checkIntv t), s')
  | None => None
  end.

(** One turn of the state-update loop (lines 174-185).  [writes] is the list
    of [WriteNodeState] calls the backend has received; [err] is what the
    backend answers if it is called in this turn ([None]: no error). *)
Definition stateUpdateTick (err : option string)
    (writes : list (string * Z * Z)) (t : Timers) (s : ProxyServer)
    : list (string * Z * Z) * Timers * ProxyServer :=
  let '(writes', s') :=
    match currentBlockTemplate s with
    | Some tpl =>
        let writes' := writes ++ [(CName (config s), Height tpl, TDifficulty tpl)] in
        match err with
        | Some _ => (writes', markSick s)
        | None => (writes', markOk s)
        end
    | None => (writes, s)
    end in
  (writes', reset_stateUpdateTimer t (stateUpdateIntv t), s').

(** ** Start-up: [NewProxy] (lines 67-191) *)

(** What [NewProxy] does to the outside, in order. *)
Inductive LogArg := LStr (x : string) | LInt (x : Z) | LFloat (x : float).

Inductive Loop := CleanLoop | RefreshLoop | CheckLoop | StateUpdateLoop.

Inductive Event :=
  | EvPolicyStart                               (* policy.Start *)
  | EvLog (format : string) (args : list LogArg) (* log.Printf *)
  | EvNewRPCClient (name url timeout : string)  (* rpc.NewRPCClient *)
  | EvGoListenSP                                (* go proxy.ListenSP() *)
  | EvGoListenES                                (* go proxy.ListenES() *)
  | EvFetchBlockTemplate                        (* proxy.fetchBlockTemplate() *)
  | EvNewTimer (d : Z)                          (* time.NewTimer *)
  | EvGo (l : Loop).                            (* go func() { for { ... } }() *)

(** How a run ends: with a value, in [log.Fatal] (the process exits), or in
    a run-time panic. *)
Inductive Res (A : Type) :=
  | Done (a : A)
  | Fatal (msg : string)
  | Panicked.
Arguments Done {A} a.
Arguments Fatal {A} msg.
Arguments Panicked {A}.

(** A computation that appends to the trace of events and may abort. *)
Definition Run (A : Type) : Type := list Event → list Event * Res A.

#[export] Instance run_ret : MRet Run := λ A a tr, (tr, Done a).

#[export] Instance run_bind : MBind Run := λ A B f c tr,
  match c tr with
  | (tr', Done a) => f a tr'
  | (tr', Fatal msg) => (tr', Fatal msg)
  | (tr', Panicked) => (tr', Panicked)
  end.

Definition emit (e : Event) : Run unit := λ tr, (tr ++ [e], Done ()).

Definition fatal {A} (msg : string) : Run A := λ tr, (tr, Fatal msg).

Definition panic {A} : Run A := λ tr, (tr, Panicked).

(** [if c { log.Fatal(msg) }] *)
Definition fatalIf (c : bool) (msg : string) : Run unit :=
  if c then fatal msg else mret ().

(** A Go expression that panics when it has no value. *)
Definition must {A} (o : option A) : Run A :=
  match o with
  | Some a => mret a
  | None => panic
  end.

(** The loop of lines 95-98 over [cfg.Upstream]. *)
Fixpoint newUpstreams (us : list Upstream) : Run (list RPCClient) :=
  match us with
  | [] => mret []
  | v :: us' =>
      emit (EvNewRPCClient (UName v) (UUrl v) (UTimeout v));;
      emit (EvLog "Upstream: %s => %s" [LStr (UName v); LStr (UUrl v)]);;
      cs ← newUpstreams us';
      mret (mkRPCClient (UName v) (UUrl v) (UTimeout v) :: cs)
  end.

(** An HTTP request and the reply being written, as far as [Start] uses
    them. *)
Record Request := mkRequest {
  Method : string;
  RemoteAddr : string
}.

(** [status = None]: the handler wrote no header, and net/http answers 200. *)
Record ResponseWriter := mkResponseWriter {
  status : option Z;
  contentType : option string;
  body : string
}.

Definition newline : string := String "010"%char "".

(** net/http's [Error]: the plain-text content type, the status code, then
    the message and a newline as the body. *)
Definition httpError (w : ResponseWriter) (error : string) (code : Z)
    : ResponseWriter :=
  mkResponseWriter (Some code) (Some "text/plain; charset=utf-8")
    (body w +:+ error +:+ newline).

Section Externals.
(** Functions of other packages and of other files of this package. *)
Variable GetTargetHex : Z → string.
(** [None]: the duration does not parse, and [MustParseDuration] panics. *)
Variable MustParseDuration : string → option Z.
Variable fetchBlockTemplate : ProxyServer → ProxyServer.
(** The host part that net.SplitHostPort returns. *)
Variable SplitHostPort : string → string.

(** The struct literal of line 74 with the assignments of lines 75-77;
    every other field has its zero value. *)
Definition newServer (cfg : Config) : ProxyServer :=
  mkProxyServer cfg None 0 [] (GetTargetHex (Proxy_Difficulty cfg)) 0 0 false 0
    ∅ ∅ (Stratum_MinDiffFloat cfg) 0%float.

(** The switch of lines 101-114. *)
Definition startStratum (cfg : Config) (proxy : ProxyServer) : Run ProxyServer :=
  if Stratum_Enabled cfg then
    let proxy := set_sessions proxy true in
    if bool_decide (Stratum_Protocol cfg = "Stratum-Proxy") then
      emit EvGoListenSP;; mret proxy
    else if bool_decide (Stratum_Protocol cfg = "EthereumStratum") then
      emit EvGoListenES;; mret proxy
    else
      fatal "Please choose either Stratum-Proxy or EthereumStratum protocol for your stratum endpoint."
  else
    fatal "Stratum endpoint is not configured properly.".

Definition NewProxy (cfg : Config) : Run (ProxyServer * Timers) :=
  fatalIf (bool_decide (String.length (CName cfg) = 0%nat))
    "You must set instance name";;
  emit EvPolicyStart;;
  let proxy := newServer cfg in
  fatalIf (PrimFloat.ltb (minDiffFloat proxy) 0x1.999999999999ap-4%float
           && bool_decide (Stratum_Protocol cfg = "EthereumStratum"))
    "For EthereumStratum protocol type, the minimum float difficulty must be set to at least 0.1";;
  let proxy := set_maxDiffFloat proxy (Stratum_MaxDiffFloat cfg) in
  emit (EvLog "Set minimum float difficulty to %v" [LFloat (minDiffFloat proxy)]);;
  emit (EvLog "Set maximum float difficulty to %v" [LFloat (maxDiffFloat proxy)]);;
  let nonceSize := Stratum_NonceSize cfg in
  let nonceSize := if nonceSize <? 2 then 2 else nonceSize in
  let proxy := set_nonceSize proxy nonceSize in
  emit (EvLog "Set nonce size to %v" [LInt (nonceSize)]);;
  cs ← newUpstreams (CUpstream cfg);
  let proxy := set_upstreams proxy cs in
  c1 ← must (rpc proxy);
  c2 ← must (rpc proxy);
  emit (EvLog "Default upstream: %s => %s" [LStr (Name c1); LStr (Url c2)]);;
  proxy ← startStratum cfg proxy;
  emit EvFetchBlockTemplate;;
  let proxy := fetchBlockTemplate proxy in
  d ← must (MustParseDuration (Proxy_HashrateExpiration cfg));
  let proxy := set_hashrateExpiration proxy d in
  refreshIntv ← must (MustParseDuration (Proxy_BlockRefreshInterval cfg));
  emit (EvNewTimer refreshIntv);;
  emit (EvLog "Set block refresh every %v" [LInt refreshIntv]);;
  cleanIntv ← must (MustParseDuration (Proxy_CleanInterval cfg));
  emit (EvNewTimer cleanIntv);;
  checkIntv ← must (MustParseDuration (UpstreamCheckInterval cfg));
  emit (EvNewTimer checkIntv);;
  stateUpdateIntv ← must (MustParseDuration (Proxy_StateUpdateInterval cfg));
  emit (EvNewTimer stateUpdateIntv);;
  emit (EvGo CleanLoop);;
  emit (EvGo RefreshLoop);;
  emit (EvGo CheckLoop);;
  emit (EvGo StateUpdateLoop);;
  mret (proxy, mkTimers refreshIntv cleanIntv checkIntv stateUpdateIntv
                 refreshIntv cleanIntv checkIntv stateUpdateIntv).

(** [remoteAddr] (lines 216-219). *)
Definition remoteAddr (r : Request) : string := SplitHostPort (RemoteAddr r).

(** The handler that [Start] registers for the path / (lines 196-204):
    the reply, the events, the server afterwards. *)
Definition notifyHandler (w : ResponseWriter) (r : Request) (s : ProxyServer)
    : ResponseWriter * list Event * ProxyServer :=
  if bool_decide (Method r ≠ "POST") then
    (httpError w ("rpc: POST method required, received " +:+ Method r) 405, [], s)
  else
    (w,
     [EvLog "Received new job notification from %v" [LStr (remoteAddr r)];
      EvFetchBlockTemplate],
     fetchBlockTemplate s).

(** One turn of the refresh loop (lines 154-156). *)
Definition refreshTick (t : Timers) (s : ProxyServer) : Timers * ProxyServer :=
  (reset_refreshTimer t (refreshIntv t), fetchBlockTemplate s).
End Externals.

(** The steps of [NewProxy] that come after its validation of the
    configuration: listeners, the first template fetch, timers, loops. *)
Definition laterStep (e : Event) : bool :=
  match e with
  | EvGoListenSP | EvGoListenES | EvFetchBlockTemplate | EvNewTimer _ | EvGo _ => true
  | _ => false
  end.

(** How often the template was refreshed in a trace. *)
Definition isFetch (e : Event) : bool :=
  match e with
  | EvFetchBlockTemplate => true
  | _ => false
  end.

Definition refreshes (tr : list Event) : nat :=
  length (List.filter isFetch tr).

(** ** Concrete inputs used in the examples below *)

Definition demo_cfg : Config :=
  mkConfig "main" [mkUpstream "A" "http://a:8545" "10s";
                   mkUpstream "B" "http://b:8545" "10s";
                   mkUpstream "C" "http://c:8545" "10s"]
    "5s" "0.0.0.0:8888" 2000000000 "3h" "120ms" "60s" "3s" true 2
    true "Stratum-Proxy" 0.5%float 100%float 2.

(** A parser of the three durations of [demo_cfg] that matter below. *)
Definition demo_parse (x : string) : option Z :=
  if bool_decide (x = "120ms") then Some 120000000
  else if bool_decide (x = "60s") then Some 60000000000
  else if bool_decide (x = "5s") then Some 5000000000
  else if bool_decide (x = "3s") then Some 3000000000
  else if bool_decide (x = "3h") then Some 10800000000000
  else None.

Definition demo_clients : list RPCClient :=
  [mkRPCClient "A" "http://a:8545" "10s";
   mkRPCClient "B" "http://b:8545" "10s";
   mkRPCClient "C" "http://c:8545" "10s"].

(** The server of [demo_cfg] once its upstreams are built (line 98). *)
Definition demo_srv : ProxyServer :=
  set_upstreams (newServer (λ _, "") demo_cfg) demo_clients.

(** A and C answer the probe, B does not. *)
Definition demo_check_AC (i : nat) : bool := negb (Nat.eqb i 1).

(** Only B answers the probe. *)
Definition demo_check_B (i : nat) : bool := Nat.eqb i 1.

(** Nobody answers the probe. *)
Definition demo_check_none (i : nat) : bool := false.

(** Three logins with their own records: alice is marked and in her grace
    period, bob is live, carol is marked and past her grace period. *)
Definition demo_work : WorkState :=
  (<["alice" := 1%positive]>
     (<["bob" := 2%positive]> (<["carol" := 3%positive]> ∅)),
   <[1%positive := mkWorkDiff 4000 true true]>
     (<[2%positive := mkWorkDiff 8000 false false]>
        (<[3%positive := mkWorkDiff 2000 false true]> ∅))).

(** [demo_srv] with a block template in its cache. *)
Definition demo_srv_tpl : ProxyServer :=
  set_blockTemplate demo_srv (Some (mkBlockTemplate 19000000 8000000000)).

(** The timers as [NewProxy] arms them for [demo_cfg]. *)
Definition demo_timers : Timers :=
  mkTimers 120000000 60000000000 5000000000 3000000000
           120000000 60000000000 5000000000 3000000000.

(** The clients and the events of the loop over [cfg.Upstream]. *)
Definition toClient (v : Upstream) : RPCClient :=
  mkRPCClient (UName v) (UUrl v) (UTimeout v).

Definition upstreamEvents (us : list Upstream) : list Event :=
  us ≫= λ v, [EvNewRPCClient (UName v) (UUrl v) (UTimeout v);
              EvLog "Upstream: %s => %s" [LStr (UName v); LStr (UUrl v)]].

(** The configurations that [NewProxy] refuses. *)
Definition invalidConfig (cfg : Config) : Prop :=
  CName cfg = "" ∨
  Stratum_Enabled cfg = false ∨
  (Stratum_Protocol cfg ≠ "Stratum-Proxy" ∧
   Stratum_Protocol cfg ≠ "EthereumStratum") ∨
  (Stratum_Protocol cfg = "EthereumStratum" ∧
   PrimFloat.ltb (Stratum_MinDiffFloat cfg) 0x1.999999999999ap-4%float = true).

(** [demo_cfg] without an instance name. *)
Definition demo_cfg_unnamed : Config :=
  mkConfig "" (CUpstream demo_cfg)
    "5s" "0.0.0.0:8888" 2000000000 "3h" "120ms" "60s" "3s" true 2
    true "Stratum-Proxy" 0.5%float 100%float 2.

(** [demo_cfg] for EthereumStratum with a minimum difficulty of 0.05. *)
Definition demo_cfg_es_low : Config :=
  mkConfig "main" (CUpstream demo_cfg)
    "5s" "0.0.0.0:8888" 2000000000 "3h" "120ms" "60s" "3s" true 2
    true "EthereumStratum" 0x1.999999999999ap-5%float 100%float 2.

(** A reply nothing was written to yet. *)
Definition demo_reply : ResponseWriter := mkResponseWriter None None "".

(** The host of an address of the form host:port with a five-digit port. *)
Definition demo_host (x : string) : string :=
  String.substring 0 (String.length x - 6) x.

(** ** Runs of the loops *)

(** The turns of the state-update loop for the backend answers [errs], one
    answer per turn. *)
Fixpoint stateUpdateLoop (errs : list (option string))
    (writes : list (string * Z * Z)) (t : Timers) (s : ProxyServer)
    : list (string * Z * Z) * Timers * ProxyServer :=
  match errs with
  | [] => (writes, t, s)
  | err :: errs' =>
      let '(writes', t', s') := stateUpdateTick err writes t s in
      stateUpdateLoop errs' writes' t' s'
  end.

(** No two keys of the map point to the same record. *)
Definition unshared_all (m : gmap string addr) : Prop :=
  map_Forall (λ k _, unshared m k) m.

(** [demo_srv] before its upstreams are built, with a stale index. *)
Definition demo_srv_no_upstream : ProxyServer :=
  set_upstream (newServer (λ _, "") demo_cfg) 1.

(** [demo_srv_tpl] with a health check that tolerates no failure at all. *)
Definition demo_srv_strict : ProxyServer :=
  mkProxyServer
    (mkConfig "main" (CUpstream demo_cfg)
       "5s" "0.0.0.0:8888" 2000000000 "3h" "120ms" "60s" "3s" true 0
       true "Stratum-Proxy" 0.5%float 100%float 2)
    (blockTemplate demo_srv_tpl) 0 demo_clients "" 0 0 true 2 ∅ ∅
    0.5%float 100%float.

(** A map with a nil pointer: nothing is stored at dave's address. *)
Definition demo_work_nil : WorkState :=
  (<["alice" := 1%positive]> (<["dave" := 9%positive]> ∅),
   <[1%positive := mkWorkDiff 4000 true true]> ∅).

(** A map whose only entry is live. *)
Definition demo_work_live : WorkState :=
  ({["bob" := 2%positive]}, {[2%positive := mkWorkDiff 8000 false false]}).

(** ** Start-up, in steps *)

(** The listener that [NewProxy] starts for a valid configuration. *)
Definition listenerEvent (cfg : Config) : Event :=
  if bool_decide (Stratum_Protocol cfg = "Stratum-Proxy")
  then EvGoListenSP else EvGoListenES.

(** The events of lines 72-98: the policy server, the three log lines and
    the upstream clients. *)
Definition configEvents (cfg : Config) : list Event :=
  [EvPolicyStart;
   EvLog "Set minimum float difficulty to %v" [LFloat (Stratum_MinDiffFloat cfg)];
   EvLog "Set maximum float difficulty to %v" [LFloat (Stratum_MaxDiffFloat cfg)];
   EvLog "Set nonce size to %v"
     [LInt (if Stratum_NonceSize cfg <? 2 then 2 else Stratum_NonceSize cfg)]]
  ++ upstreamEvents (CUpstream cfg).

(** The events of lines 72-99, with the log line of the default upstream
    [c]. *)
Definition headEvents (cfg : Config) (c : RPCClient) : list Event :=
  configEvents cfg
  ++ [EvLog "Default upstream: %s => %s" [LStr (Name c); LStr (Url c)]].

(** The events of lines 116-188 for the four parsed intervals. *)
Definition tailEvents (refreshI cleanI checkI stateUpdateI : Z) : list Event :=
  [EvFetchBlockTemplate;
   EvNewTimer refreshI;
   EvLog "Set block refresh every %v" [LInt refreshI];
   EvNewTimer cleanI;
   EvNewTimer checkI;
   EvNewTimer stateUpdateI;
   EvGo CleanLoop; EvGo RefreshLoop; EvGo CheckLoop; EvGo StateUpdateLoop].

(** [demo_cfg] without upstreams. *)
Definition demo_cfg_no_upstream : Config :=
  mkConfig "main" []
    "5s" "0.0.0.0:8888" 2000000000 "3h" "120ms" "60s" "3s" true 2
    true "Stratum-Proxy" 0.5%float 100%float 2.

(** [demo_cfg] for EthereumStratum with a clean interval that does not
    parse. *)
Definition demo_cfg_bad_interval : Config :=
  mkConfig "main" (CUpstream demo_cfg)
    "5s" "0.0.0.0:8888" 2000000000 "3h" "120ms" "sixty" "3s" true 2
    true "EthereumStratum" 0.5%float 100%float 2.

(** [demo_cfg] for EthereumStratum with a nonce size below the minimum. *)
Definition demo_cfg_es : Config :=
  mkConfig "main" (CUpstream demo_cfg)
    "5s" "0.0.0.0:8888" 2000000000 "3h" "120ms" "60s" "3s" true 2
    true "EthereumStratum" 0.5%float 100%float 1.

(** ** The loops and the handlers together *)

(** One turn of one of the four loops of [NewProxy], one request to the
    handler of [Start], or one call of [rpc()]. *)
Inductive Turn :=
  | TurnClean (ks : list string)            (* lines 136-146 *)
  | TurnRefresh                             (* lines 154-156 *)
  | TurnCheck (Check : nat → bool)          (* lines 164-166 *)
  | TurnStateUpdate (err : option string)   (* lines 174-185 *)
  | TurnNotify (r : Request)                (* lines 196-204 *)
  | TurnRpc.                                (* lines 221-224 *)

(** The timers of the loops, the server, and the writes the backend has
    received. *)
Record World := mkWorld {
  timers : Timers;
  server : ProxyServer;
  nodeStates : list (string * Z * Z)
}.

Section Turns.
Variable fetchBlockTemplate : ProxyServer → ProxyServer.
Variable SplitHostPort : string → string.

(** [None]: the turn panics. *)
Definition turn (x : Turn) (w : World) : option World :=
  match x with
  | TurnClean ks =>
      match cleanTick ks (timers w) (server w) with
      | Some (t, s) => Some (mkWorld t s (nodeStates w))
      | None => None
      end
  | TurnRefresh =>
      let '(t, s) := refreshTick fetchBlockTemplate (timers w) (server w) in
      Some (mkWorld t s (nodeStates w))
  | TurnCheck Check =>
      match checkTick Check (timers w) (server w) with
      | Some (t, s) => Some (mkWorld t s (nodeStates w))
      | None => None
      end
  | TurnStateUpdate err =>
      let '(writes, t, s) :=
        stateUpdateTick err (nodeStates w) (timers w) (server w) in
      Some (mkWorld t s writes)
  | TurnNotify r =>
      let '(_, _, s) :=
        notifyHandler fetchBlockTemplate SplitHostPort
          (mkResponseWriter None None "") r (server w) in
      Some (mkWorld (timers w) s (nodeStates w))
  | TurnRpc =>
      match rpc (server w) with
      | Some _ => Some w
      | None => None
      end
  end.

(** A schedule of turns, stopped by the first panic. *)
Fixpoint turns (xs : list Turn) (w : World) : option World :=
  match xs with
  | [] => Some w
  | x :: xs' =>
      match turn x w with
      | Some w' => turns xs' w'
      | None => None
      end
  end.
End Turns.

Definition isCleanTurn (x : Turn) : bool :=
  match x with
  | TurnClean _ => true
  | _ => false
  end.

(** What the turns keep true: the upstream list, a valid index, a map
    without nil pointers, the intervals of [t0], and three timers armed with
    their own interval. *)
Definition loops_ok (us : list RPCClient) (t0 : Timers) (w : World) : Prop :=
  upstreams (server w) = us ∧
  0 ≤ upstream (server w) < Z.of_nat (length us) ∧
  store_closed (workDiff (server w)) (workStore (server w)) ∧
  refreshIntv (timers w) = refreshIntv t0 ∧
  cleanIntv (timers w) = cleanIntv t0 ∧
  checkIntv (timers w) = checkIntv t0 ∧
  stateUpdateIntv (timers w) = stateUpdateIntv t0 ∧
  refreshTimer (timers w) = refreshIntv t0 ∧
  checkTimer (timers w) = checkIntv t0 ∧
  stateUpdateTimer (timers w) = stateUpdateIntv t0.

(** [fetchBlockTemplate] is in another file of the package; what the loops
    need of it is that it leaves the upstreams and the work-difficulty map
    alone. *)
Definition keeps_upstreams_and_work (f : ProxyServer → ProxyServer) : Prop :=
  ∀ s, upstream (f s) = upstream s ∧ upstreams (f s) = upstreams s ∧
       workDiff (f s) = workDiff s ∧ workStore (f s) = workStore s.

(** A [fetchBlockTemplate] that stores a template and clears the counter. *)
Definition demo_fetch (s : ProxyServer) : ProxyServer :=
  markOk (set_blockTemplate s (Some (mkBlockTemplate 19000000 8000000000))).

(** * Properties *)

(** ** Machine integers *)

Lemma int32_small (z : Z) : -2 ^ 31 ≤ z < 2 ^ 31 → int32 z = z.
Proof.
  intros Hz. unfold int32.
  rewrite Z.mod_small by lia. lia.
Qed.

Lemma int64_small (z : Z) : -2 ^ 63 ≤ z < 2 ^ 63 → int64 z = z.
Proof.
  intros Hz. unfold int64.
  rewrite Z.mod_small by lia. lia.
Qed.

Lemma slice_index_of_nat {A} (xs : list A) (i : nat) :
  slice_index xs (Z.of_nat i) = xs !! i.
Proof.
  unfold slice_index.
  destruct (Z.ltb_spec (Z.of_nat i) 0) as [Hneg|_]; [lia|].
  by rewrite Nat2Z.id.
Qed.

(** ** The probe loop *)

Section CheckLoop.
Variable Check : nat → bool.

(** Once a candidate is taken, the rest of the loop changes nothing. *)
Lemma checkLoop_backup vs : ∀ i c, checkLoop Check i vs c true = (c, true).
Proof.
  induction vs as [|v vs IH]; intros i c; simpl; [done|].
  rewrite andb_false_r. apply IH.
Qed.

(** With no healthy upstream the loop leaves the candidate alone. *)
Lemma checkLoop_none vs : ∀ i c,
  (∀ j, (i ≤ j < i + length vs)%nat → Check j = false) →
  checkLoop Check i vs c false = (c, false).
Proof.
  induction vs as [|v vs IH]; intros i c Hnone; simpl; [done|].
  rewrite (Hnone i) by (simpl; lia). simpl.
  apply IH. intros j Hj. apply Hnone. simpl. lia.
Qed.

(** With a healthy upstream the loop stops at the first one. *)
Lemma checkLoop_first vs : ∀ i c,
  (∃ j, (i ≤ j < i + length vs)%nat ∧ Check j = true) →
  ∃ k, (i ≤ k < i + length vs)%nat ∧ Check k = true ∧
       (∀ j, (i ≤ j < k)%nat → Check j = false) ∧
       checkLoop Check i vs c false = (int32 (Z.of_nat k), true).
Proof.
  induction vs as [|v vs IH]; intros i c (j & Hj & Hcj); simpl in *; [lia|].
  destruct (Check i) eqn:Hci; simpl.
  - exists i. split; [lia|]. split; [done|].
    split; [intros j' Hj'; lia|]. apply checkLoop_backup.
  - destruct (IH (S i) c) as (k & Hk & Hck & Hmin & Heq).
    { exists j. split; [|done].
      destruct (decide (j = i)) as [->|]; [congruence|lia]. }
    exists k. split; [lia|]. split; [done|]. split; [|done].
    intros j' Hj'. destruct (decide (j' = i)) as [->|]; [done|].
    apply Hmin. lia.
Qed.
End CheckLoop.

(** ** The health sweep *)

Lemma sweepCandidate_none Check s :
  (∀ i, (i < length (upstreams s))%nat → Check i = false) →
  sweepCandidate Check s = 0.
Proof.
  intros Hnone. unfold sweepCandidate.
  rewrite checkLoop_none; [done|]. intros j Hj. apply Hnone. lia.
Qed.

Lemma sweepCandidate_first Check s :
  Z.of_nat (length (upstreams s)) ≤ 2 ^ 31 →
  (∃ j, (j < length (upstreams s))%nat ∧ Check j = true) →
  ∃ k, (k < length (upstreams s))%nat ∧ Check k = true ∧
       (∀ j, (j < k)%nat → Check j = false) ∧
       sweepCandidate Check s = Z.of_nat k.
Proof.
  intros Hlen (j & Hj & Hcj). unfold sweepCandidate.
  destruct (checkLoop_first Check (upstreams s) 0 0) as (k & Hk & Hck & Hmin & Heq).
  { exists j. split; [lia|done]. }
  exists k. split; [lia|]. split; [done|]. split.
  - intros j' Hj'. apply Hmin. lia.
  - rewrite Heq. simpl. apply int32_small. lia.
Qed.

(** The sweep publishes its candidate whenever that is an index of the
    slice. *)
Lemma checkUpstreams_candidate Check s (k : nat) :
  sweepCandidate Check s = Z.of_nat k →
  (k < length (upstreams s))%nat →
  ∃ s', checkUpstreams Check s = Some s' ∧ upstream s' = Z.of_nat k ∧
        upstreams s' = upstreams s.
Proof.
  intros Hcand Hk. unfold checkUpstreams. rewrite Hcand.
  case_bool_decide as Hneq.
  - rewrite slice_index_of_nat.
    destruct (lookup_lt_is_Some_2 (upstreams s) k Hk) as [c ->].
    by exists (set_upstream s (Z.of_nat k)).
  - exists s. split; [done|]. split; [|done].
    destruct (decide (upstream s = Z.of_nat k)); [done|contradiction].
Qed.

(** *** The sweep as two atomic steps *)

(** The scan followed at once by the store is [checkUpstreams]. *)
Lemma checkUpstreams_steps Check s :
  (step (ActScan Check) (mkMachine s None) ≫= step ActStore)
  = (λ s', mkMachine s' None) <$> checkUpstreams Check s.
Proof.
  unfold checkUpstreams. simpl.
  case_bool_decide; simpl; [|done].
  by destruct (slice_index (upstreams s) (sweepCandidate Check s)).
Qed.

Lemma checkLoop_range Check vs : ∀ i c b,
  Z.of_nat (i + length vs) ≤ 2 ^ 31 →
  0 ≤ c < Z.of_nat (i + length vs) →
  0 ≤ (checkLoop Check i vs c b).1 < Z.of_nat (i + length vs).
Proof.
  induction vs as [|v vs IH]; intros i c b Hlen Hc; simpl in *; [done|].
  replace (i + S (length vs))%nat with (S i + length vs)%nat in * by lia.
  destruct (Check i && negb b); apply IH; try done.
  rewrite int32_small; lia.
Qed.

Lemma sweepCandidate_range Check s :
  upstreams s ≠ [] →
  Z.of_nat (length (upstreams s)) ≤ 2 ^ 31 →
  0 ≤ sweepCandidate Check s < Z.of_nat (length (upstreams s)).
Proof.
  intros Hne Hlen. unfold sweepCandidate.
  apply (checkLoop_range Check (upstreams s) 0 0 false); simpl; [done|].
  destruct (upstreams s); [done|]. simpl. lia.
Qed.

Lemma slice_index_in_range {A} (xs : list A) (i : Z) :
  0 ≤ i < Z.of_nat (length xs) → is_Some (slice_index xs i).
Proof.
  intros Hi. unfold slice_index.
  destruct (Z.ltb_spec i 0) as [Hneg|_]; [lia|].
  apply lookup_lt_is_Some_2. lia.
Qed.

Lemma step_index_ok us a m :
  us ≠ [] → Z.of_nat (length us) ≤ 2 ^ 31 →
  index_ok us m →
  ∃ m', step a m = Some m' ∧ index_ok us m'.
Proof.
  intros Hne Hlen Hok.
  assert (Hsame : ∃ m', Some m = Some m' ∧ index_ok us m') by by exists m.
  destruct Hok as (Hus & Hidx & Hpend). subst us.
  destruct a as [Check| |]; simpl.
  - destruct (pending m) as [c|] eqn:Hp; [done|].
    case_bool_decide; [|done].
    eexists. split; [done|]. split; [done|]. split; [done|].
    simpl. intros c [= <-]. by apply sweepCandidate_range.
  - destruct (pending m) as [c|] eqn:Hp; [|done].
    destruct (slice_index_in_range (upstreams (srv m)) c) as [x ->];
      [by apply Hpend|].
    eexists. split; [done|]. split; [done|]. split; [by apply Hpend|].
    simpl. intros c' [=].
  - unfold rpc.
    destruct (slice_index_in_range (upstreams (srv m)) (upstream (srv m)))
      as [x ->]; [done|].
    by destruct (pending m).
Qed.

Lemma run_index_ok us acts : ∀ m,
  us ≠ [] → Z.of_nat (length us) ≤ 2 ^ 31 →
  index_ok us m →
  ∃ m', run acts m = Some m' ∧ index_ok us m'.
Proof.
  induction acts as [|a acts IH]; intros m Hne Hlen Hok; simpl.
  - by exists m.
  - destruct (step_index_ok us a m Hne Hlen Hok) as (m1 & -> & Hok1).
    by apply IH.
Qed.

(** The struct literal of line 74 leaves the index at its zero value. *)
Lemma newServer_upstream G cfg : upstream (newServer G cfg) = 0.
Proof. done. Qed.

(** C1, as the code has it.  When no upstream answers the probe of a sweep,
    the candidate keeps its initial value 0, so the sweep makes the first
    configured upstream the active one whatever the index was before; the
    index is unchanged exactly when it was 0 already. *)
Theorem checkUpstreams_none_healthy_selects_first Check s :
  upstreams s ≠ [] →
  (∀ i, (i < length (upstreams s))%nat → Check i = false) →
  ∃ s', checkUpstreams Check s = Some s' ∧
        upstream s' = 0 ∧
        upstreams s' = upstreams s ∧
        (upstream s' = upstream s ↔ upstream s = 0).
Proof.
  intros Hne Hnone.
  destruct (checkUpstreams_candidate Check s 0) as (s' & Hrun & Hidx & Hus).
  - by apply sweepCandidate_none.
  - destruct (upstreams s); [done|]. simpl. lia.
  - exists s'. simpl in Hidx. rewrite Hidx. by repeat split.
Qed.

Lemma checkUpstreams_none_healthy_selects_first_witness :
  ∃ s', checkUpstreams demo_check_none (set_upstream demo_srv 2) = Some s' ∧
        upstream s' = 0.
Proof.
  destruct (checkUpstreams_none_healthy_selects_first demo_check_none
              (set_upstream demo_srv 2)) as (s' & Hrun & Hidx & _).
  - discriminate.
  - reflexivity.
  - exists s'. split; [exact Hrun | exact Hidx].
Defined.

(** C1, as the claim words it, fails: with upstreams A, B, C, the third one
    active and none of them healthy, the sweep moves the index from 2 to 0. *)
Lemma checkUpstreams_none_healthy_not_retained :
  ¬ (∀ (Check : nat → bool) (s s' : ProxyServer),
       (∀ i, (i < length (upstreams s))%nat → Check i = false) →
       checkUpstreams Check s = Some s' →
       upstream s' = upstream s).
Proof.
  intros Hclaim.
  specialize (Hclaim demo_check_none (set_upstream demo_srv 2)
                (set_upstream (set_upstream demo_srv 2) 0)).
  discriminate Hclaim; reflexivity.
Qed.

(** C2.  In a sweep in which some upstream answers the probe, the index
    after the sweep is the smallest index whose probe succeeded.  (An index
    is an [int32]; the slice is taken to have at most 2^31 elements, so that
    every index converts without wrapping.) *)
Theorem checkUpstreams_selects_first_healthy Check s :
  Z.of_nat (length (upstreams s)) ≤ 2 ^ 31 →
  (∃ j, (j < length (upstreams s))%nat ∧ Check j = true) →
  ∃ s' (i : nat),
    checkUpstreams Check s = Some s' ∧
    upstream s' = Z.of_nat i ∧
    upstreams s' = upstreams s ∧
    (i < length (upstreams s))%nat ∧
    Check i = true ∧
    ∀ j, (j < i)%nat → Check j = false.
Proof.
  intros Hlen Hex.
  destruct (sweepCandidate_first Check s Hlen Hex) as (k & Hk & Hck & Hmin & Hcand).
  destruct (checkUpstreams_candidate Check s k Hcand Hk) as (s' & Hrun & Hidx & Hus).
  by exists s', k.
Qed.

(** The scenario of C2: upstreams A, B, C, of which A and C are healthy and
    B is not, C being the active one; the sweep selects A. *)
Lemma checkUpstreams_selects_first_healthy_witness :
  ∃ s', checkUpstreams demo_check_AC (set_upstream demo_srv 2) = Some s' ∧
        upstream s' = 0 ∧
        rpc s' = Some (mkRPCClient "A" "http://a:8545" "10s").
Proof.
  destruct (checkUpstreams_selects_first_healthy demo_check_AC
              (set_upstream demo_srv 2))
    as (s' & i & Hrun & Hidx & Hus & Hlt & Hci & Hmin).
  - simpl. lia.
  - exists 2%nat. split; [simpl; lia | reflexivity].
  - assert (i = 0%nat) as ->.
    { destruct i as [|i]; [reflexivity|].
      specialize (Hmin 0%nat ltac:(lia)). discriminate Hmin. }
    exists s'. split; [exact Hrun|]. split; [exact Hidx|].
    unfold rpc. rewrite Hidx, Hus. reflexivity.
Defined.

(** C10.  Start from a server whose index is 0 (as [newServer] leaves it)
    and whose upstream list is non-empty (and short enough for [int32]).
    Whatever the schedule of sweep scans, sweep stores and [rpc()] calls, no
    step panics on an index out of range, the upstream list stays as it is,
    and the index is at every point an index of that list. *)
Theorem upstream_index_always_valid s acts :
  upstream s = 0 →
  upstreams s ≠ [] →
  Z.of_nat (length (upstreams s)) ≤ 2 ^ 31 →
  ∃ m', run acts (mkMachine s None) = Some m' ∧
        upstreams (srv m') = upstreams s ∧
        0 ≤ upstream (srv m') < Z.of_nat (length (upstreams s)) ∧
        is_Some (rpc (srv m')).
Proof.
  intros Hzero Hne Hlen.
  destruct (run_index_ok (upstreams s) acts (mkMachine s None) Hne Hlen)
    as (m' & Hrun & Hus & Hidx & _).
  - split; [done|]. simpl. split; [|done].
    rewrite Hzero. destruct (upstreams s); [done|]. simpl. lia.
  - exists m'. split; [done|]. split; [done|]. split; [done|].
    unfold rpc. rewrite Hus. by apply slice_index_in_range.
Qed.

(** A schedule over A, B, C: a scan that finds only B healthy, an [rpc()]
    call before its store, the store, another [rpc()] call, a sweep that
    finds nobody healthy, and a last [rpc()] call. *)
Lemma upstream_index_always_valid_witness :
  ∃ m', run [ActScan demo_check_B; ActRpc; ActStore; ActRpc;
             ActScan demo_check_none; ActStore; ActRpc]
            (mkMachine demo_srv None) = Some m' ∧
        0 ≤ upstream (srv m') < 3.
Proof.
  destruct (upstream_index_always_valid demo_srv
              [ActScan demo_check_B; ActRpc; ActStore; ActRpc;
               ActScan demo_check_none; ActStore; ActRpc])
    as (m' & Hrun & _ & Hidx & _).
  - reflexivity.
  - discriminate.
  - simpl. lia.
  - exists m'. split; [exact Hrun | exact Hidx].
Defined.

(** ** The sick counter *)

(** C4.  [isSick] answers true exactly when the health check is enabled and
    the counter has reached [MaxFails]; [markSick] adds one (short of the
    largest [int64]), [markOk] stores zero; so from zero, with the health
    check enabled and [MaxFails] 2, two failures make the server sick and a
    success after them makes it well again. *)
Theorem sick_counter s :
  (isSick s = true ↔
     Proxy_HealthCheck (config s) = true ∧ Proxy_MaxFails (config s) ≤ failsCount s) ∧
  (- 2 ^ 63 ≤ failsCount s < 2 ^ 63 - 1 →
     failsCount (markSick s) = failsCount s + 1) ∧
  failsCount (markOk s) = 0 ∧
  (Proxy_HealthCheck (config s) = true →
   Proxy_MaxFails (config s) = 2 →
   failsCount s = 0 →
   isSick s = false ∧
   isSick (markSick s) = false ∧
   isSick (markSick (markSick s)) = true ∧
   isSick (markOk (markSick (markSick s))) = false).
Proof.
  split; [|split; [|split]].
  - unfold isSick.
    destruct (Proxy_HealthCheck (config s)),
      (Z.leb_spec (Proxy_MaxFails (config s)) (failsCount s)); simpl;
      split; try done; intros [? ?]; try done; lia.
  - intros Hrange. simpl. apply int64_small. lia.
  - done.
  - intros Hhc Hmax Hzero. unfold isSick. simpl.
    rewrite Hhc, Hmax, Hzero. by vm_compute.
Qed.

Lemma sick_counter_witness :
  failsCount (markSick demo_srv) = 1 ∧
  isSick (markSick (markSick demo_srv)) = true ∧
  isSick (markOk (markSick (markSick demo_srv))) = false.
Proof.
  destruct (sick_counter demo_srv) as (_ & Hinc & _ & Hscenario).
  destruct Hscenario as (_ & _ & Hsick & Hok); [reflexivity..|].
  split; [|split; [exact Hsick | exact Hok]].
  apply Hinc. simpl. lia.
Defined.

(** ** The state-update loop *)

(** C5.  A turn of the state-update loop with a template in the cache makes
    one call of [WriteNodeState], with the instance name and the height and
    difficulty of the template; on an error of the backend the turn is
    [markSick] (the counter goes up by one), otherwise [markOk] (the counter
    is zero).  With no template the backend is not called and the server is
    left as it is. *)
Theorem stateUpdateTick_writes_once err writes t s :
  ∃ writes' t' s',
    stateUpdateTick err writes t s = (writes', t', s') ∧
    (∀ tpl, currentBlockTemplate s = Some tpl →
       writes' = writes ++ [(CName (config s), Height tpl, TDifficulty tpl)] ∧
       (is_Some err →
          s' = markSick s ∧ failsCount s' = int64 (failsCount s + 1)) ∧
       (err = None → s' = markOk s ∧ failsCount s' = 0)) ∧
    (currentBlockTemplate s = None →
       writes' = writes ∧ s' = s ∧ failsCount s' = failsCount s).
Proof.
  unfold stateUpdateTick.
  destruct (currentBlockTemplate s) as [tpl|]; [destruct err as [e|]|];
    (eexists _, _, _; split; [reflexivity|]); split; try done.
  - intros ? [= <-]. split; [done|]. split; [done|]. by intros [=].
  - intros ? [= <-]. split; [done|]. split; [|done]. by intros [? [=]].
Qed.

(** A failed write followed by a successful one, then a turn with the cache
    empty. *)
Lemma stateUpdateTick_writes_once_witness :
  ∃ w1 t1 s1 w2 t2 s2 w3 t3 s3,
    stateUpdateTick (Some "connection refused") [] demo_timers demo_srv_tpl
      = (w1, t1, s1) ∧
    w1 = [("main", 19000000, 8000000000)] ∧ failsCount s1 = 1 ∧
    stateUpdateTick None w1 t1 s1 = (w2, t2, s2) ∧
    length w2 = 2%nat ∧ failsCount s2 = 0 ∧
    stateUpdateTick None w2 t2 (set_blockTemplate s1 None) = (w3, t3, s3) ∧
    w3 = w2 ∧ failsCount s3 = 1.
Proof.
  destruct (stateUpdateTick_writes_once (Some "connection refused") []
              demo_timers demo_srv_tpl) as (w1 & t1 & s1 & Hrun1 & Hsome1 & _).
  destruct (Hsome1 _ eq_refl) as (Hw1 & Hsick1 & _).
  destruct (Hsick1 (ex_intro _ _ eq_refl)) as [Hs1 Hf1].
  destruct (stateUpdateTick_writes_once None w1 t1 s1)
    as (w2 & t2 & s2 & Hrun2 & Hsome2 & _).
  assert (Htpl : currentBlockTemplate s1
                 = Some (mkBlockTemplate 19000000 8000000000))
    by (rewrite Hs1; reflexivity).
  destruct (Hsome2 _ Htpl) as (Hw2 & _ & Hok2).
  destruct (Hok2 eq_refl) as [Hs2 Hf2].
  destruct (stateUpdateTick_writes_once None w2 t2 (set_blockTemplate s1 None))
    as (w3 & t3 & s3 & Hrun3 & _ & Hnone3).
  destruct (Hnone3 eq_refl) as (Hw3 & Hs3 & Hf3).
  exists w1, t1, s1, w2, t2, s2, w3, t3, s3.
  split; [exact Hrun1|]. split; [exact Hw1|]. split; [rewrite Hf1; reflexivity|].
  split; [exact Hrun2|]. split; [rewrite Hw2, Hw1; reflexivity|].
  split; [exact Hf2|]. split; [exact Hrun3|]. split; [exact Hw3|].
  rewrite Hf3. simpl. rewrite Hf1. reflexivity.
Defined.

(** ** The cleanup sweep *)

Section Sweep.
Implicit Types (m : gmap string addr) (h : gmap addr WorkDiff).
Implicit Types (k : string) (a : addr) (v : WorkDiff) (st : WorkState).

(** The three branches of the loop body. *)
Lemma sweepEntry_live k m h a v :
  m !! k = Some a → h !! a = Some v → IsDel v = false →
  sweepEntry k (m, h) = Some (m, h).
Proof. intros Hk Ha Hdel. unfold sweepEntry. simpl. by rewrite Hk, Ha, Hdel. Qed.

Lemma sweepEntry_delete k m h a v :
  m !! k = Some a → h !! a = Some v → IsDel v = true → PassDel v = false →
  sweepEntry k (m, h) = Some (delete k m, h).
Proof.
  intros Hk Ha Hdel Hpass. unfold sweepEntry. simpl.
  by rewrite Hk, Ha, Hdel, Hpass.
Qed.

Lemma sweepEntry_grace k m h a v :
  m !! k = Some a → h !! a = Some v → IsDel v = true → PassDel v = true →
  sweepEntry k (m, h) = Some (m, <[a := clearPassDel v]> h).
Proof.
  intros Hk Ha Hdel Hpass. unfold sweepEntry. simpl.
  by rewrite Hk, Ha, Hdel, Hpass.
Qed.

(** Conversely, a completed iteration took one of them or did nothing. *)
Lemma sweepEntry_cases k m h st' :
  sweepEntry k (m, h) = Some st' →
  st' = (m, h) ∨
  (∃ a v, m !! k = Some a ∧ h !! a = Some v ∧ IsDel v = true ∧
          PassDel v = false ∧ st' = (delete k m, h)) ∨
  (∃ a v, m !! k = Some a ∧ h !! a = Some v ∧ IsDel v = true ∧
          PassDel v = true ∧ st' = (m, <[a := clearPassDel v]> h)).
Proof.
  unfold sweepEntry. simpl.
  destruct (m !! k) as [a|] eqn:Hk; [|intros [= <-]; by left].
  destruct (h !! a) as [v|] eqn:Ha; [|done].
  destruct (IsDel v) eqn:Hdel, (PassDel v) eqn:Hpass; simpl; intros [= <-].
  - right; right. by exists a, v.
  - right; left. by exists a, v.
  - by left.
  - by left.
Qed.

Lemma cleanSweepIn_app ks1 ks2 st :
  cleanSweepIn (ks1 ++ ks2) st = cleanSweepIn ks1 st ≫= cleanSweepIn ks2.
Proof.
  revert st. induction ks1 as [|k ks1 IH]; intros st; simpl; [done|].
  destruct (sweepEntry k st) as [st'|]; [apply IH|done].
Qed.

(** *** The sweep completes when no pointer is nil *)

Lemma sweepEntry_closed k m h :
  store_closed m h →
  ∃ m' h', sweepEntry k (m, h) = Some (m', h') ∧ store_closed m' h'.
Proof.
  intros Hcl. unfold sweepEntry. simpl.
  destruct (m !! k) as [a|] eqn:Hk; [|by exists m, h].
  destruct (Hcl k a Hk) as [v Ha]. rewrite Ha.
  destruct (IsDel v) eqn:Hdel, (PassDel v) eqn:Hpass; simpl;
    try by exists m, h.
  - exists m, (<[a := clearPassDel v]> h). split; [done|].
    intros k' a' Hk'. destruct (decide (a = a')) as [->|Hne].
    + rewrite lookup_insert_eq. by eexists.
    + rewrite lookup_insert_ne by done. by eapply Hcl.
  - exists (delete k m), h. split; [done|].
    intros k' a' Hk'. apply lookup_delete_Some in Hk' as [_ Hk'].
    by eapply Hcl.
Qed.

Lemma cleanSweepIn_closed ks : ∀ m h,
  store_closed m h →
  ∃ m' h', cleanSweepIn ks (m, h) = Some (m', h') ∧ store_closed m' h'.
Proof.
  induction ks as [|k ks IH]; intros m h Hcl; simpl.
  - by exists m, h.
  - destruct (sweepEntry_closed k m h Hcl) as (m1 & h1 & -> & Hcl1).
    by apply IH.
Qed.

(** *** What a sweep can change *)

Lemma aged_refl v : aged v v.
Proof. by left. Qed.

Lemma aged_trans v1 v2 v3 : aged v1 v2 → aged v2 v3 → aged v1 v3.
Proof.
  intros [->|[Hdel ->]] [->|[Hdel' ->]]; try by left.
  - right. done.
  - right. done.
  - right. split; [done|]. by destruct v1.
Qed.

Lemma sweepEntry_sweeps_to k st st' :
  sweepEntry k st = Some st' → sweeps_to st st'.
Proof.
  destruct st as [m h]. intros Hstep.
  destruct (sweepEntry_cases _ _ _ _ Hstep)
    as [->|[(a & v & Hk & Ha & Hdel & Hpass & ->)
           |(a & v & Hk & Ha & Hdel & Hpass & ->)]]; split; simpl; try done.
  - intros a v Ha. exists v. split; [done|apply aged_refl].
  - apply delete_subseteq.
  - intros a' v' Ha'. exists v'. split; [done|apply aged_refl].
  - intros a' v' Ha'. destruct (decide (a = a')) as [<-|Hne].
    + rewrite lookup_insert_eq. exists (clearPassDel v).
      split; [done|]. right. by simplify_eq.
    + rewrite lookup_insert_ne by done. exists v'. split; [done|apply aged_refl].
Qed.

Lemma cleanSweepIn_sweeps_to ks : ∀ st st',
  cleanSweepIn ks st = Some st' → sweeps_to st st'.
Proof.
  induction ks as [|k ks IH]; intros st st'; simpl.
  - intros [= <-]. split; [done|].
    intros a v Ha. exists v. split; [done|apply aged_refl].
  - destruct (sweepEntry k st) as [st1|] eqn:Hstep; [|done].
    intros Hrest. destruct (sweepEntry_sweeps_to _ _ _ Hstep) as [Hm1 Hh1].
    destruct (IH _ _ Hrest) as [Hm2 Hh2]. split.
    + by etrans.
    + intros a v Ha. destruct (Hh1 a v Ha) as (v1 & Ha1 & Hag1).
      destruct (Hh2 a v1 Ha1) as (v2 & Ha2 & Hag2).
      exists v2. split; [done|]. by eapply aged_trans.
Qed.
End Sweep.

Section SweepEntries.
Implicit Types (m : gmap string addr) (h : gmap addr WorkDiff).
Implicit Types (k : string) (a : addr) (v : WorkDiff) (st : WorkState).

Lemma entry_Some st k v :
  entry st k = Some v ↔ ∃ a, st.1 !! k = Some a ∧ st.2 !! a = Some v.
Proof. unfold entry. apply bind_Some. Qed.

Lemma enumerates_elem ks m k : enumerates ks m → k ∈ ks ↔ is_Some (m !! k).
Proof.
  intros [_ Hdom]. rewrite <- elem_of_dom, <- Hdom.
  by rewrite elem_of_list_to_set.
Qed.

Lemma aged_fields v v' :
  aged v v' → Difficulty v' = Difficulty v ∧ IsDel v' = IsDel v.
Proof. by intros [->|[_ ->]]. Qed.

Lemma aged_live v v' : aged v v' → IsDel v = false → v' = v.
Proof. intros [->|[Hdel _]]; [done|congruence]. Qed.

(** *** Entries that are not marked *)

Lemma sweepEntry_keeps_live k' st st' k v :
  sweepEntry k' st = Some st' →
  entry st k = Some v → IsDel v = false →
  entry st' k = Some v.
Proof.
  destruct st as [m h]. intros Hstep Hentry Hlive.
  apply entry_Some in Hentry as (a & Hk & Ha). simpl in *.
  destruct (sweepEntry_cases _ _ _ _ Hstep)
    as [->|[(a' & v' & Hk' & Ha' & Hdel & Hpass & ->)
           |(a' & v' & Hk' & Ha' & Hdel & Hpass & ->)]];
    apply entry_Some; simpl.
  - by exists a.
  - exists a. split; [|done]. rewrite lookup_delete_ne; [done|].
    intros ->. congruence.
  - exists a. split; [done|]. rewrite lookup_insert_ne; [done|].
    intros ->. congruence.
Qed.

Lemma cleanSweepIn_keeps_live ks : ∀ st st' k v,
  cleanSweepIn ks st = Some st' →
  entry st k = Some v → IsDel v = false →
  entry st' k = Some v.
Proof.
  induction ks as [|k' ks IH]; intros st st' k v; simpl.
  - by intros [= <-].
  - destruct (sweepEntry k' st) as [st1|] eqn:Hstep; [|done].
    intros Hrest Hentry Hlive.
    eapply IH; [done| |done]. by eapply sweepEntry_keeps_live.
Qed.

(** *** Entries that are marked and past their grace period *)

Lemma cleanSweepIn_gone ks st st' k :
  cleanSweepIn ks st = Some st' → st.1 !! k = None → st'.1 !! k = None.
Proof.
  intros Hrun Hnone. destruct (cleanSweepIn_sweeps_to _ _ _ Hrun) as [Hsub _].
  by eapply lookup_weaken_None.
Qed.

Lemma cleanSweepIn_deletes ks : ∀ m h st' k a v,
  k ∈ ks →
  m !! k = Some a → h !! a = Some v →
  IsDel v = true → PassDel v = false →
  cleanSweepIn ks (m, h) = Some st' →
  st'.1 !! k = None.
Proof.
  induction ks as [|k' ks IH]; intros m h st' k a v Hin Hk Ha Hdel Hpass;
    [by apply elem_of_nil in Hin|].
  simpl. destruct (decide (k' = k)) as [->|Hne].
  - rewrite (sweepEntry_delete k m h a v) by done.
    intros Hrest. eapply cleanSweepIn_gone; [done|].
    simpl. apply lookup_delete_eq.
  - apply elem_of_cons in Hin as [->|Hin]; [done|].
    destruct (sweepEntry k' (m, h)) as [st1|] eqn:Hstep; [|done].
    destruct (sweepEntry_cases _ _ _ _ Hstep)
      as [->|[(a' & v' & Hk' & Ha' & Hdel' & Hpass' & ->)
             |(a' & v' & Hk' & Ha' & Hdel' & Hpass' & ->)]].
    + by apply (IH m h st' k a v).
    + apply (IH (delete k' m) h st' k a v); try done.
      by rewrite lookup_delete_ne.
    + apply (IH m (<[a' := clearPassDel v']> h) st' k a v); try done.
      rewrite lookup_insert_ne; [done|]. intros ->. congruence.
Qed.

(** *** Entries that are marked and in their grace period *)

(** A record that only [k] points to is out of reach of the iterations at
    the other keys. *)
Lemma cleanSweepIn_frame ks : ∀ m h st' k a,
  k ∉ ks →
  m !! k = Some a → unshared m k →
  cleanSweepIn ks (m, h) = Some st' →
  st'.1 !! k = Some a ∧ st'.2 !! a = h !! a ∧ unshared st'.1 k.
Proof.
  induction ks as [|k' ks IH]; intros m h st' k a Hnotin Hk Hown; simpl.
  - by intros [= <-].
  - apply not_elem_of_cons in Hnotin as [Hne Hnotin].
    destruct (sweepEntry k' (m, h)) as [st1|] eqn:Hstep; [|done].
    destruct (sweepEntry_cases _ _ _ _ Hstep)
      as [->|[(a' & v' & Hk' & Ha' & Hdel' & Hpass' & ->)
             |(a' & v' & Hk' & Ha' & Hdel' & Hpass' & ->)]].
    + by apply IH.
    + apply IH; [done|by rewrite lookup_delete_ne|].
      intros k2 a2 Hk2. apply lookup_delete_Some in Hk2 as [_ Hk2].
      rewrite lookup_delete_ne by done. by apply Hown.
    + intros Hrest.
      assert (a' ≠ a) as Hna.
      { intros ->. apply Hne. symmetry. by apply (Hown k' a). }
      destruct (IH m (<[a' := clearPassDel v']> h) st' k a)
        as (Hk1 & Ha1 & Hown1); [done..|].
      by rewrite lookup_insert_ne in Ha1.
Qed.

Lemma cleanSweepIn_grace ks m h st' k a v :
  NoDup ks → k ∈ ks →
  m !! k = Some a → h !! a = Some v → unshared m k →
  IsDel v = true → PassDel v = true →
  cleanSweepIn ks (m, h) = Some st' →
  st'.1 !! k = Some a ∧ st'.2 !! a = Some (clearPassDel v).
Proof.
  intros Hnodup Hin Hk Ha Hown Hdel Hpass.
  apply list_elem_of_split in Hin as (ks1 & ks2 & ->).
  apply NoDup_app in Hnodup as (_ & Hnot1 & Hnodup2).
  apply NoDup_cons in Hnodup2 as [Hnot2 _].
  assert (k ∉ ks1) as Hnot1'.
  { intros Hin1. apply (Hnot1 k Hin1). by left. }
  rewrite cleanSweepIn_app.
  destruct (cleanSweepIn ks1 (m, h)) as [[m1 h1]|] eqn:Hrun1; [|done].
  destruct (cleanSweepIn_frame _ _ _ _ _ _ Hnot1' Hk Hown Hrun1)
    as (Hk1 & Ha1 & Hown1). simpl in *.
  rewrite Ha in Ha1.
  rewrite (sweepEntry_grace k m1 h1 a v) by done.
  intros Hrun2.
  destruct (cleanSweepIn_frame _ _ _ _ _ _ Hnot2 Hk1 Hown1 Hrun2)
    as (Hk2 & Ha2 & _).
  split; [done|]. by rewrite Ha2, lookup_insert_eq.
Qed.
End SweepEntries.

(** C3.  Take a sweep over a map without nil pointers, in any order in which
    [range] may produce its keys, and an entry that is marked [IsDel] when
    the sweep starts.  If its [PassDel] is false the sweep removes the key.
    If its [PassDel] is true, and no other key points to the same record,
    the sweep keeps the key and leaves the record with [PassDel] false,
    [IsDel] true and its difficulty; the sweep after that, started from that
    state, removes the key. *)
Theorem cleanup_two_phase m h ks k v :
  store_closed m h →
  enumerates ks m →
  entry (m, h) k = Some v →
  IsDel v = true →
  ∃ st', cleanSweepIn ks (m, h) = Some st' ∧
    (PassDel v = false → st'.1 !! k = None) ∧
    (PassDel v = true → unshared m k →
       entry st' k = Some (mkWorkDiff (Difficulty v) false true) ∧
       ∀ ks2, enumerates ks2 st'.1 →
         ∃ st'', cleanSweepIn ks2 st' = Some st'' ∧ st''.1 !! k = None).
Proof.
  intros Hcl Henum Hentry Hdel.
  apply entry_Some in Hentry as (a & Hk & Ha). simpl in *.
  destruct (cleanSweepIn_closed ks m h Hcl) as (m1 & h1 & Hrun & Hcl1).
  assert (k ∈ ks) as Hin by (apply (enumerates_elem ks m k Henum); by eexists).
  exists (m1, h1). split; [done|]. split.
  - intros Hpass. by eapply cleanSweepIn_deletes.
  - intros Hpass Hown.
    destruct (cleanSweepIn_grace ks m h (m1, h1) k a v) as [Hk1 Ha1];
      [by destruct Henum|done..|]. simpl in *.
    split.
    + apply entry_Some. exists a. simpl. split; [done|].
      rewrite Ha1. unfold clearPassDel. by rewrite Hdel.
    + intros ks2 Henum2.
      destruct (cleanSweepIn_closed ks2 m1 h1 Hcl1) as (m2 & h2 & Hrun2 & _).
      exists (m2, h2). split; [done|].
      eapply (cleanSweepIn_deletes ks2 m1 h1 (m2, h2) k a (clearPassDel v));
        try done.
      apply (enumerates_elem ks2 m1 k Henum2). by eexists.
Qed.

(** Two sweeps over the three logins: the first clears alice's [PassDel] and
    removes carol, the second removes alice. *)
Lemma cleanup_two_phase_witness :
  ∃ st' st'',
    cleanSweepIn ["bob"; "carol"; "alice"] demo_work = Some st' ∧
    st'.1 !! "carol" = None ∧
    entry st' "alice" = Some (mkWorkDiff 4000 false true) ∧
    cleanSweepIn ["alice"; "bob"] st' = Some st'' ∧
    st''.1 !! "alice" = None.
Proof.
  assert (Hcl : store_closed demo_work.1 demo_work.2)
    by (apply (bool_decide_unpack _); vm_compute; exact I).
  assert (Henum : enumerates ["bob"; "carol"; "alice"] demo_work.1)
    by (apply (bool_decide_unpack _); vm_compute; exact I).
  destruct (cleanup_two_phase demo_work.1 demo_work.2 ["bob"; "carol"; "alice"]
              "carol" (mkWorkDiff 2000 false true) Hcl Henum eq_refl eq_refl)
    as (st1 & Hrun1 & Hgone & _).
  destruct (cleanup_two_phase demo_work.1 demo_work.2 ["bob"; "carol"; "alice"]
              "alice" (mkWorkDiff 4000 true true) Hcl Henum eq_refl eq_refl)
    as (st' & Hrun & _ & Hgrace).
  assert (st1 = st') as -> by congruence.
  destruct Hgrace as [Hentry Hnext]; [reflexivity| |].
  { apply (bool_decide_unpack _). vm_compute. exact I. }
  destruct (Hnext ["alice"; "bob"]) as (st'' & Hrun2 & Hgone2).
  { vm_compute in Hrun. injection Hrun as <-.
    apply (bool_decide_unpack _). vm_compute. exact I. }
  exists st', st''.
  split; [exact Hrun|]. split; [exact (Hgone eq_refl)|].
  split; [exact Hentry|]. split; [exact Hrun2 | exact Hgone2].
Defined.

(** C9.  A sweep over a map without nil pointers, in any order, leaves every
    entry that is not marked [IsDel] in the map with its record as it was;
    every entry it leaves in the map was there before with the same
    difficulty and the same [IsDel]; and no record of the store changes its
    difficulty or its [IsDel]. *)
Theorem cleanup_frame m h ks :
  store_closed m h →
  ∃ st', cleanSweepIn ks (m, h) = Some st' ∧
    (∀ k v, entry (m, h) k = Some v → IsDel v = false → entry st' k = Some v) ∧
    (∀ k v', entry st' k = Some v' →
       ∃ v, entry (m, h) k = Some v ∧
            Difficulty v' = Difficulty v ∧ IsDel v' = IsDel v) ∧
    (∀ a v, h !! a = Some v →
       ∃ v', st'.2 !! a = Some v' ∧
             Difficulty v' = Difficulty v ∧ IsDel v' = IsDel v).
Proof.
  intros Hcl.
  destruct (cleanSweepIn_closed ks m h Hcl) as (m1 & h1 & Hrun & Hcl1).
  destruct (cleanSweepIn_sweeps_to _ _ _ Hrun) as [Hsub Hstore]. simpl in *.
  exists (m1, h1). split; [done|]. split; [|split].
  - intros k v Hentry Hlive. by eapply cleanSweepIn_keeps_live.
  - intros k v' Hentry. apply entry_Some in Hentry as (a & Hk1 & Ha1).
    simpl in *.
    assert (m !! k = Some a) as Hk by by eapply lookup_weaken.
    destruct (Hcl k a Hk) as [v Ha].
    destruct (Hstore a v Ha) as (v1 & Ha1' & Haged).
    assert (v1 = v') as -> by congruence.
    exists v. split; [|by apply aged_fields].
    apply entry_Some. by exists a.
  - intros a v Ha. destruct (Hstore a v Ha) as (v' & Ha' & Haged).
    exists v'. split; [done|]. by apply aged_fields.
Qed.

(** The sweep over the three logins leaves bob as he was. *)
Lemma cleanup_frame_witness :
  ∃ st', cleanSweepIn ["carol"; "alice"; "bob"] demo_work = Some st' ∧
         entry st' "bob" = Some (mkWorkDiff 8000 false false).
Proof.
  destruct (cleanup_frame demo_work.1 demo_work.2 ["carol"; "alice"; "bob"])
    as (st' & Hrun & Hlive & _).
  - apply (bool_decide_unpack _). vm_compute. exact I.
  - exists st'. split; [exact Hrun|].
    apply Hlive; reflexivity.
Defined.

(** Why C3 asks for a record of its own: when two keys point to one record
    in its grace period, the iteration at the first key clears [PassDel] and
    the iteration at the second key, in the same sweep, removes that key. *)
Example cleanup_shared_record :
  let st : WorkState :=
    (<["alice" := 1%positive]> (<["alice.rig2" := 1%positive]> ∅),
     <[1%positive := mkWorkDiff 4000 true true]> ∅) in
  (λ st', map_to_list st'.1) <$> cleanSweepIn ["alice"; "alice.rig2"] st
  = Some [("alice", 1%positive)].
Proof. vm_compute. reflexivity. Qed.

(** ** The cleanup loop and its timer *)

Lemma cleanTick_closed ks t s :
  store_closed (workDiff s) (workStore s) →
  ∃ s', cleanTick ks t s = Some (reset_cleanTimer t (refreshIntv t), s') ∧
        store_closed (workDiff s') (workStore s').
Proof.
  intros Hcl. unfold cleanTick.
  destruct (cleanSweepIn_closed ks _ _ Hcl) as (m' & h' & -> & Hcl').
  by exists (set_work s m' h').
Qed.

(** The first turn has waited for whatever the timer was armed with; every
    later turn has waited for the refresh interval. *)
Lemma cleanLoop_waits orders : ∀ t s,
  store_closed (workDiff s) (workStore s) →
  ∃ ws t' s',
    cleanLoop orders t s = Some (ws, t', s') ∧
    ws = match orders with
         | [] => []
         | _ :: rest => cleanTimer t :: replicate (length rest) (refreshIntv t)
         end ∧
    refreshIntv t' = refreshIntv t ∧
    (orders ≠ [] → cleanTimer t' = refreshIntv t).
Proof.
  induction orders as [|ks orders IH]; intros t s Hcl; simpl.
  - by exists [], t, s.
  - destruct (cleanTick_closed ks t s Hcl) as (s1 & -> & Hcl1).
    destruct (IH (reset_cleanTimer t (refreshIntv t)) s1 Hcl1)
      as (ws & t' & s' & Hrun & Hws & Hrefresh & Harmed).
    rewrite Hrun.
    exists (cleanTimer t :: ws), t', s'. split; [done|].
    simpl in *. split; [|split; [done|]].
    + f_equal. rewrite Hws. by destruct orders.
    + intros _. destruct orders as [|ks' orders]; [|by apply Harmed].
      simpl in Hrun. by simplify_eq.
Qed.

(** ** Start-up *)

(** *** Running a computation one statement at a time *)

Lemma bind_emit {B} e (f : unit → Run B) tr :
  (emit e ≫= f) tr = f () (tr ++ [e]).
Proof. reflexivity. Qed.

Lemma bind_fatalIf {B} c msg (f : unit → Run B) tr :
  (fatalIf c msg ≫= f) tr = if c then (tr, Fatal msg) else f () tr.
Proof. by destruct c. Qed.

Lemma bind_must {A B} (o : option A) (f : A → Run B) tr :
  (must o ≫= f) tr =
  match o with
  | Some a => f a tr
  | None => (tr, Panicked)
  end.
Proof. by destruct o. Qed.

Lemma newUpstreams_run us : ∀ tr,
  newUpstreams us tr = (tr ++ upstreamEvents us, Done (toClient <$> us)).
Proof.
  induction us as [|v us IH]; intros tr; simpl.
  - by rewrite app_nil_r.
  - rewrite !bind_emit. unfold mbind, run_bind. rewrite IH. simpl.
    by rewrite <- !app_assoc.
Qed.

Lemma bind_newUpstreams {B} us (f : list RPCClient → Run B) tr :
  (newUpstreams us ≫= f) tr = f (toClient <$> us) (tr ++ upstreamEvents us).
Proof. unfold mbind, run_bind. by rewrite newUpstreams_run. Qed.

Lemma bind_startStratum {B} cfg proxy (f : ProxyServer → Run B) tr :
  (startStratum cfg proxy ≫= f) tr =
  if Stratum_Enabled cfg then
    if bool_decide (Stratum_Protocol cfg = "Stratum-Proxy") then
      f (set_sessions proxy true) (tr ++ [EvGoListenSP])
    else if bool_decide (Stratum_Protocol cfg = "EthereumStratum") then
      f (set_sessions proxy true) (tr ++ [EvGoListenES])
    else
      (tr, Fatal "Please choose either Stratum-Proxy or EthereumStratum protocol for your stratum endpoint.")
  else
    (tr, Fatal "Stratum endpoint is not configured properly.").
Proof.
  unfold startStratum.
  destruct (Stratum_Enabled cfg); [|done].
  by repeat case_bool_decide.
Qed.

Lemma upstreamEvents_quiet us :
  Forall (λ e, laterStep e = false) (upstreamEvents us).
Proof.
  induction us as [|v us IH]; simpl; [constructor|].
  by repeat constructor.
Qed.

(** The default upstream of line 99 is the first configured one. *)
Lemma rpc_first_upstream s (us : list Upstream) :
  upstream s = 0 →
  rpc (set_upstreams s (toClient <$> us))
  = match us with [] => None | v :: _ => Some (toClient v) end.
Proof.
  intros Hzero. unfold rpc, slice_index. simpl. rewrite Hzero. simpl.
  by destruct us.
Qed.

(** Run the statement at the head of the computation. *)
Ltac run_head :=
  first [ rewrite bind_emit
        | rewrite bind_fatalIf
        | rewrite bind_must
        | rewrite bind_newUpstreams
        | rewrite bind_startStratum ];
  cbv beta iota.

(** The events so far are none of the later steps. *)
Ltac quiet :=
  repeat apply Forall_app_2; try apply upstreamEvents_quiet;
  by repeat constructor.

(** The run has ended in an abort. *)
Ltac aborted :=
  eexists _, _; split; [reflexivity|];
  split; [done|]; split; [quiet|]; first [by intros [] | by eexists].

Section StartUp.
Variable GetTargetHex : Z → string.
Variable MustParseDuration : string → option Z.
Variable fetchBlockTemplate : ProxyServer → ProxyServer.

(** When [NewProxy] returns, the clean timer is armed with the parsed
  clean interval and the loops hold the parsed refresh interval. *)
Lemma NewProxy_done cfg tr tr' s t :
NewProxy GetTargetHex MustParseDuration fetchBlockTemplate cfg tr
  = (tr', Done (s, t)) →
MustParseDuration (Proxy_CleanInterval cfg) = Some (cleanIntv t) ∧
MustParseDuration (Proxy_BlockRefreshInterval cfg) = Some (refreshIntv t) ∧
cleanTimer t = cleanIntv t.
Proof.
unfold NewProxy. cbv zeta.
run_head. destruct (bool_decide _); [done|].
do 2 run_head. destruct (PrimFloat.ltb _ _ && bool_decide _); [done|].
do 5 run_head. destruct (rpc _) as [c|]; [|done].
do 3 run_head.
assert (∀ proxy tr1,
  (emit EvFetchBlockTemplate ≫= λ _,
   must (MustParseDuration (Proxy_HashrateExpiration cfg)) ≫= λ d,
   must (MustParseDuration (Proxy_BlockRefreshInterval cfg)) ≫= λ refreshIntv,
   emit (EvNewTimer refreshIntv) ≫= λ _,
   emit (EvLog "Set block refresh every %v" [LInt refreshIntv]) ≫= λ _,
   must (MustParseDuration (Proxy_CleanInterval cfg)) ≫= λ cleanIntv,
   emit (EvNewTimer cleanIntv) ≫= λ _,
   must (MustParseDuration (UpstreamCheckInterval cfg)) ≫= λ checkIntv,
   emit (EvNewTimer checkIntv) ≫= λ _,
   must (MustParseDuration (Proxy_StateUpdateInterval cfg)) ≫= λ stateUpdateIntv,
   emit (EvNewTimer stateUpdateIntv) ≫= λ _,
   emit (EvGo CleanLoop) ≫= λ _,
   emit (EvGo RefreshLoop) ≫= λ _,
   emit (EvGo CheckLoop) ≫= λ _,
   emit (EvGo StateUpdateLoop) ≫= λ _,
   mret (set_hashrateExpiration (fetchBlockTemplate proxy) d,
         mkTimers refreshIntv cleanIntv checkIntv stateUpdateIntv
                  refreshIntv cleanIntv checkIntv stateUpdateIntv)) tr1
  = (tr', Done (s, t)) →
  MustParseDuration (Proxy_CleanInterval cfg) = Some (cleanIntv t) ∧
  MustParseDuration (Proxy_BlockRefreshInterval cfg) = Some (refreshIntv t) ∧
  cleanTimer t = cleanIntv t) as Htail.
{ intros proxy tr1.
  do 2 run_head.
  destruct (MustParseDuration (Proxy_HashrateExpiration cfg)); [|done].
  run_head.
  destruct (MustParseDuration (Proxy_BlockRefreshInterval cfg)); [|done].
  do 3 run_head.
  destruct (MustParseDuration (Proxy_CleanInterval cfg)); [|done].
  do 2 run_head.
  destruct (MustParseDuration (UpstreamCheckInterval cfg)); [|done].
  do 2 run_head.
  destruct (MustParseDuration (Proxy_StateUpdateInterval cfg)); [|done].
  do 5 run_head. by intros [= <- <- <-]. }
destruct (Stratum_Enabled cfg); [|done].
destruct (bool_decide (Stratum_Protocol cfg = "Stratum-Proxy"));
  [apply Htail|].
destruct (bool_decide (Stratum_Protocol cfg = "EthereumStratum"));
  [apply Htail|done].
Qed.

(** C6.  [NewProxy] does not return a server when the instance name is
  empty, or the stratum endpoint is disabled, or the protocol is neither
  Stratum-Proxy nor EthereumStratum, or the protocol is EthereumStratum
  and the minimum float difficulty is below 0.1.  The run then ends before
  any listener is started, before the first template fetch and before any
  timer or loop is created; and it ends in [log.Fatal] whenever an upstream
  is configured (with none, line 99 panics first). *)
Theorem NewProxy_refuses_invalid cfg :
invalidConfig cfg →
∃ tr r,
  NewProxy GetTargetHex MustParseDuration fetchBlockTemplate cfg [] = (tr, r) ∧
  (∀ x, r ≠ Done x) ∧
  Forall (λ e, laterStep e = false) tr ∧
  (CUpstream cfg ≠ [] → ∃ msg, r = Fatal msg).
Proof.
intros Hinv. unfold NewProxy. cbv zeta.
run_head. destruct (bool_decide (String.length (CName cfg) = 0%nat)) eqn:Hname;
  [aborted|].
do 2 run_head.
destruct (PrimFloat.ltb _ _ && bool_decide _) eqn:Hes; [aborted|].
do 5 run_head. rewrite rpc_first_upstream by done.
destruct (CUpstream cfg) as [|v us] eqn:Hus; cbv beta iota; [aborted|].
do 3 run_head.
destruct (Stratum_Enabled cfg) eqn:Hen; [|aborted].
assert (Hvalid : bool_decide (Stratum_Protocol cfg = "Stratum-Proxy") = true ∨
                 bool_decide (Stratum_Protocol cfg = "EthereumStratum") = true →
                 False).
{ intros Hproto.
  destruct Hinv as [Hempty|[Hoff|[[Hsp Hes']|[Hes' Hlt]]]].
  - rewrite Hempty in Hname. by vm_compute in Hname.
  - congruence.
  - destruct Hproto as [Hp|Hp]; apply bool_decide_eq_true in Hp; congruence.
  - change (minDiffFloat (newServer GetTargetHex cfg))
      with (Stratum_MinDiffFloat cfg) in Hes.
    rewrite Hlt, bool_decide_eq_true_2 in Hes; done. }
destruct (bool_decide (Stratum_Protocol cfg = "Stratum-Proxy")) eqn:Hsp;
  [destruct Hvalid; by left|].
destruct (bool_decide (Stratum_Protocol cfg = "EthereumStratum")) eqn:Hes2;
  [destruct Hvalid; by right|].
aborted.
Qed.
End StartUp.

(** An empty instance name, and EthereumStratum with a minimum difficulty of
    0.05: both runs end in [log.Fatal], the first before anything else
    happened. *)
Lemma NewProxy_refuses_invalid_witness :
  (∃ msg, NewProxy (λ _, "") demo_parse (λ s, s) demo_cfg_unnamed []
          = ([], Fatal msg)) ∧
  (∃ tr msg, NewProxy (λ _, "") demo_parse (λ s, s) demo_cfg_es_low []
             = (tr, Fatal msg) ∧
             Forall (λ e, laterStep e = false) tr).
Proof.
  split.
  - destruct (NewProxy_refuses_invalid (λ _, "") demo_parse (λ s, s)
                demo_cfg_unnamed) as (tr & r & Hrun & _ & _ & Hfatal).
    + left. reflexivity.
    + destruct Hfatal as [msg ->]; [discriminate|].
      exists msg. rewrite Hrun. vm_compute in Hrun.
      injection Hrun as <- _. reflexivity.
  - destruct (NewProxy_refuses_invalid (λ _, "") demo_parse (λ s, s)
                demo_cfg_es_low) as (tr & r & Hrun & _ & Hquiet & Hfatal).
    + right. right. right. split; reflexivity.
    + destruct Hfatal as [msg ->]; [discriminate|].
      exists tr, msg. split; [exact Hrun | exact Hquiet].
Defined.

(** C8.  The clean timer is created with the clean interval of the
    configuration, and each turn of the cleanup loop resets it with the
    block-refresh interval: of the turns of the loop, the first has waited
    for the clean interval and every later one for the refresh interval. *)
Theorem cleanLoop_rearmed_with_refresh_interval
    GetTargetHex MustParseDuration fetchBlockTemplate cfg tr tr' s t ks orders :
  NewProxy GetTargetHex MustParseDuration fetchBlockTemplate cfg tr
    = (tr', Done (s, t)) →
  store_closed (workDiff s) (workStore s) →
  ∃ cleanI refreshI ws t' s',
    MustParseDuration (Proxy_CleanInterval cfg) = Some cleanI ∧
    MustParseDuration (Proxy_BlockRefreshInterval cfg) = Some refreshI ∧
    cleanLoop (ks :: orders) t s = Some (ws, t', s') ∧
    ws = cleanI :: replicate (length orders) refreshI ∧
    cleanTimer t' = refreshI.
Proof.
  intros Hnew Hcl.
  destruct (NewProxy_done _ _ _ _ _ _ _ _ Hnew) as (Hclean & Hrefresh & Harmed).
  destruct (cleanLoop_waits (ks :: orders) t s Hcl)
    as (ws & t' & s' & Hrun & Hws & _ & Hreset).
  exists (cleanIntv t), (refreshIntv t), ws, t', s'.
  split; [done|]. split; [done|]. split; [done|]. split.
  - by rewrite Hws, Harmed.
  - by apply Hreset.
Qed.

(** Three turns of the loop for [demo_cfg]: 60s, then 120ms twice. *)
Lemma cleanLoop_rearmed_with_refresh_interval_witness :
  ∃ tr s t ws t' s',
    NewProxy (λ _, "") demo_parse (λ s, s) demo_cfg [] = (tr, Done (s, t)) ∧
    cleanLoop [[]; []; []] t s = Some (ws, t', s') ∧
    ws = [60000000000; 120000000; 120000000].
Proof.
  assert (∃ tr s t,
            NewProxy (λ _, "") demo_parse (λ s, s) demo_cfg []
              = (tr, Done (s, t)) ∧
            workDiff s = ∅ ∧ workStore s = ∅)
    as (tr & s & t & Hnew & Hmap & Hstore).
  { eexists _, _, _. split; [vm_compute; reflexivity|]. split; reflexivity. }
  destruct (cleanLoop_rearmed_with_refresh_interval
              _ _ _ _ _ _ _ _ [] [[]; []] Hnew)
    as (cleanI & refreshI & ws & t' & s' & Hclean & Hrefresh & Hrun & Hws & _).
  { rewrite Hmap, Hstore. apply map_Forall_empty. }
  vm_compute in Hclean, Hrefresh.
  injection Hclean as <-. injection Hrefresh as <-.
  exists tr, s, t, ws, t', s'.
  split; [exact Hnew|]. split; [exact Hrun | exact Hws].
Defined.

(** ** The notification handler *)

Lemma string_app_cons a (s1 s2 : string) :
  String a s1 +:+ s2 = String a (s1 +:+ s2).
Proof. reflexivity. Qed.

Lemma string_app_assoc (s1 s2 s3 : string) :
  s1 +:+ (s2 +:+ s3) = (s1 +:+ s2) +:+ s3.
Proof.
  induction s1 as [|a s1 IH]; [done|].
  by rewrite !string_app_cons, IH.
Qed.

(** C7.  For a request whose method is not POST the handler answers 405 in
    plain text, with a message that contains the method as received, and
    does not refresh the template; for a POST it refreshes the template
    once and writes nothing, so that the reply is the implicit 200. *)
Theorem notifyHandler_method fetchBlockTemplate SplitHostPort w r s :
  (Method r ≠ "POST" →
   ∃ w',
     notifyHandler fetchBlockTemplate SplitHostPort w r s = (w', [], s) ∧
     refreshes [] = 0%nat ∧
     status w' = Some 405 ∧
     contentType w' = Some "text/plain; charset=utf-8" ∧
     body w' = body w +:+ ("rpc: POST method required, received " +:+ Method r)
                      +:+ newline ∧
     ∃ pre post, body w' = pre +:+ Method r +:+ post) ∧
  (Method r = "POST" →
   ∃ tr,
     notifyHandler fetchBlockTemplate SplitHostPort w r s
       = (w, tr, fetchBlockTemplate s) ∧
     refreshes tr = 1%nat).
Proof.
  unfold notifyHandler. split; intros Hmethod.
  - rewrite bool_decide_eq_true_2 by done.
    eexists. split; [reflexivity|]. split; [done|]. split; [done|].
    split; [done|]. split; [done|].
    exists (body w +:+ "rpc: POST method required, received "), newline.
    simpl. by rewrite !string_app_assoc.
  - rewrite bool_decide_eq_false_2 by (intros Hne; by apply Hne).
    eexists. split; [reflexivity|]. done.
Qed.

(** A GET is answered 405 with a message naming GET; a POST refreshes the
    template once. *)
Lemma notifyHandler_method_witness :
  (∃ w', notifyHandler (λ s, s) demo_host demo_reply
           (mkRequest "GET" "10.0.0.7:51234") demo_srv = (w', [], demo_srv) ∧
         status w' = Some 405 ∧
         body w' = "rpc: POST method required, received GET" +:+ newline) ∧
  (∃ tr, notifyHandler (λ s, s) demo_host demo_reply
           (mkRequest "POST" "10.0.0.7:51234") demo_srv
           = (demo_reply, tr, demo_srv) ∧
         refreshes tr = 1%nat).
Proof.
  split.
  - destruct (notifyHandler_method (λ s, s) demo_host demo_reply
                (mkRequest "GET" "10.0.0.7:51234") demo_srv) as [Hother _].
    destruct Hother as (w' & Hrun & _ & Hstatus & _ & Hbody & _); [discriminate|].
    exists w'. split; [exact Hrun|]. split; [exact Hstatus | exact Hbody].
  - destruct (notifyHandler_method (λ s, s) demo_host demo_reply
                (mkRequest "POST" "10.0.0.7:51234") demo_srv) as [_ Hpost].
    destruct Hpost as (tr & Hrun & Hcount); [reflexivity|].
    exists tr. split; [exact Hrun | exact Hcount].
Defined.

(** * Further properties *)

(** ** The health sweep, continued *)

Lemma set_upstream_same s : set_upstream s (upstream s) = s.
Proof. by destruct s. Qed.

(** X1.  A sweep changes nothing but the index, which becomes its
    candidate; and a sweep that is repeated with the same probe answers
    changes nothing at all. *)
Theorem checkUpstreams_stable Check s s' :
  checkUpstreams Check s = Some s' →
  s' = set_upstream s (sweepCandidate Check s) ∧
  checkUpstreams Check s' = Some s'.
Proof.
  unfold checkUpstreams. intros Hrun.
  assert (s' = set_upstream s (sweepCandidate Check s)) as ->.
  { case_bool_decide as Hneq.
    - destruct (slice_index _ _); by simplify_eq.
    - rewrite <- Hneq, set_upstream_same. by simplify_eq. }
  split; [done|].
  change (sweepCandidate Check (set_upstream s (sweepCandidate Check s)))
    with (sweepCandidate Check s). simpl.
  by rewrite bool_decide_eq_false_2 by (intros Hne; by apply Hne).
Qed.

Lemma checkUpstreams_stable_witness :
  ∃ s', checkUpstreams demo_check_B demo_srv = Some s' ∧
        upstream s' = 1 ∧
        failsCount s' = failsCount demo_srv ∧
        checkUpstreams demo_check_B s' = Some s'.
Proof.
  exists (set_upstream demo_srv 1).
  destruct (checkUpstreams_stable demo_check_B demo_srv (set_upstream demo_srv 1))
    as [_ Hagain]; [reflexivity|].
  split; [reflexivity|]. split; [reflexivity|]. split; [reflexivity|exact Hagain].
Defined.

(** X2.  The sweep panics, at the indexing of its log line, exactly when no
    upstream is configured and the index is not 0.  (At most 2^31
    upstreams, as for every statement on the index.) *)
Theorem checkUpstreams_panics_iff Check s :
  Z.of_nat (length (upstreams s)) ≤ 2 ^ 31 →
  checkUpstreams Check s = None ↔ upstreams s = [] ∧ upstream s ≠ 0.
Proof.
  intros Hlen. unfold checkUpstreams.
  destruct (upstreams s) as [|v vs] eqn:Hus.
  - assert (sweepCandidate Check s = 0) as ->
      by (unfold sweepCandidate; by rewrite Hus).
    case_bool_decide as Hneq; simpl; [done|].
    split; [done|]. by intros [_ ?].
  - pose proof (sweepCandidate_range Check s) as Hrange.
    rewrite Hus in Hrange.
    destruct (slice_index_in_range (v :: vs) (sweepCandidate Check s))
      as [c ->]; [by apply Hrange|].
    case_bool_decide; split; try done; by intros [? _].
Qed.

Lemma checkUpstreams_panics_iff_witness :
  checkUpstreams demo_check_none demo_srv_no_upstream = None ∧
  checkUpstreams demo_check_none (set_upstream demo_srv 1) ≠ None.
Proof.
  split.
  - apply (checkUpstreams_panics_iff demo_check_none demo_srv_no_upstream).
    + simpl. lia.
    + split; [reflexivity | discriminate].
  - intros Hnone.
    apply (checkUpstreams_panics_iff demo_check_none (set_upstream demo_srv 1))
      in Hnone as [Hempty _].
    + discriminate Hempty.
    + simpl. lia.
Defined.

(** ** The sick counter, continued *)

(** X3.  After a success the server is still sick exactly when the health
    check is enabled and [MaxFails] is zero or negative: [markOk] clears the
    counter, not the threshold. *)
Theorem markOk_still_sick_iff s :
  isSick (markOk s) = true ↔
  Proxy_HealthCheck (config s) = true ∧ Proxy_MaxFails (config s) ≤ 0.
Proof.
  unfold isSick. simpl.
  destruct (Proxy_HealthCheck (config s)),
    (Z.leb_spec (Proxy_MaxFails (config s)) 0); simpl;
    split; try done; intros [? ?]; try done; lia.
Qed.

Lemma markOk_still_sick_iff_witness :
  isSick (markOk demo_srv_strict) = true ∧ isSick (markOk demo_srv) = false.
Proof.
  split.
  - apply (markOk_still_sick_iff demo_srv_strict). split; [reflexivity|].
    simpl. lia.
  - destruct (isSick (markOk demo_srv)) eqn:Hsick; [|reflexivity].
    apply (markOk_still_sick_iff demo_srv) in Hsick as [_ Hmax].
    simpl in Hmax. lia.
Defined.

(** ** Runs of the state-update loop *)

Lemma stateUpdateTick_server err writes t s :
  (stateUpdateTick err writes t s).2 =
  match currentBlockTemplate s, err with
  | Some _, Some _ => markSick s
  | Some _, None => markOk s
  | None, _ => s
  end.
Proof.
  unfold stateUpdateTick.
  by destruct (currentBlockTemplate s), err.
Qed.

Lemma stateUpdateLoop_cons err errs writes t s :
  stateUpdateLoop (err :: errs) writes t s =
  stateUpdateLoop errs (stateUpdateTick err writes t s).1.1
    (stateUpdateTick err writes t s).1.2 (stateUpdateTick err writes t s).2.
Proof. simpl. by destruct (stateUpdateTick err writes t s) as [[??]?]. Qed.

(** The loop never touches the template cache or the configuration. *)
Lemma stateUpdateLoop_keeps errs : ∀ writes t s,
  blockTemplate (stateUpdateLoop errs writes t s).2 = blockTemplate s ∧
  config (stateUpdateLoop errs writes t s).2 = config s.
Proof.
  induction errs as [|err errs IH]; intros writes t s; [done|].
  rewrite stateUpdateLoop_cons.
  destruct (IH (stateUpdateTick err writes t s).1.1
              (stateUpdateTick err writes t s).1.2
              (stateUpdateTick err writes t s).2) as [-> ->].
  rewrite stateUpdateTick_server.
  by destruct (currentBlockTemplate s), err.
Qed.

Lemma stateUpdateLoop_all_failed errs : ∀ writes t s tpl,
  currentBlockTemplate s = Some tpl →
  Forall is_Some errs →
  - 2 ^ 63 ≤ failsCount s →
  failsCount s + Z.of_nat (length errs) < 2 ^ 63 →
  failsCount (stateUpdateLoop errs writes t s).2
  = failsCount s + Z.of_nat (length errs).
Proof.
  induction errs as [|err errs IH]; intros writes t s tpl Htpl Hall Hlo Hhi.
  - simpl. lia.
  - apply Forall_cons in Hall as [[e ->] Hall].
    rewrite stateUpdateLoop_cons. simpl length in *.
    assert (Hs : (stateUpdateTick (Some e) writes t s).2 = markSick s)
      by (rewrite stateUpdateTick_server; by rewrite Htpl).
    rewrite Hs.
    assert (Hf : failsCount (markSick s) = failsCount s + 1)
      by (simpl; apply int64_small; lia).
    rewrite (IH _ _ (markSick s) tpl); [lia|done|done|lia|lia].
Qed.

(** X4.  With a template in the cache, the counter after a run of the
    state-update loop is the number of failed writes since the last
    successful one; when every write of the run failed, it is what it was
    before plus the number of turns.  (Short of overflowing [int64].) *)
Theorem stateUpdateLoop_counts_consecutive_failures writes t s tpl :
  currentBlockTemplate s = Some tpl →
  (∀ pre post,
     Forall is_Some post →
     Z.of_nat (length post) < 2 ^ 63 →
     failsCount (stateUpdateLoop (pre ++ None :: post) writes t s).2
     = Z.of_nat (length post)) ∧
  (∀ errs,
     Forall is_Some errs →
     - 2 ^ 63 ≤ failsCount s →
     failsCount s + Z.of_nat (length errs) < 2 ^ 63 →
     failsCount (stateUpdateLoop errs writes t s).2
     = failsCount s + Z.of_nat (length errs)).
Proof.
  intros Htpl. split; [|intros; by eapply stateUpdateLoop_all_failed].
  intros pre. revert writes t s Htpl.
  induction pre as [|err pre IH]; intros writes t s Htpl post Hall Hlen.
  - simpl app. rewrite stateUpdateLoop_cons.
    assert (Hs : (stateUpdateTick None writes t s).2 = markOk s)
      by (rewrite stateUpdateTick_server; by rewrite Htpl).
    rewrite Hs.
    rewrite (stateUpdateLoop_all_failed post _ _ (markOk s) tpl);
      simpl; try done; lia.
  - simpl app. rewrite stateUpdateLoop_cons. apply IH; try done.
    rewrite stateUpdateTick_server, Htpl.
    by destruct err.
Qed.

(** Success, failure, failure, failure; then failure, failure alone. *)
Lemma stateUpdateLoop_counts_consecutive_failures_witness :
  failsCount (stateUpdateLoop
                [Some "timeout"; None; Some "timeout"; Some "refused";
                 Some "timeout"] [] demo_timers demo_srv_tpl).2 = 3 ∧
  failsCount (stateUpdateLoop [Some "timeout"; Some "refused"] []
                demo_timers demo_srv_tpl).2 = 2.
Proof.
  destruct (stateUpdateLoop_counts_consecutive_failures [] demo_timers
              demo_srv_tpl (mkBlockTemplate 19000000 8000000000) eq_refl)
    as [Hsince Hall].
  split.
  - apply (Hsince [Some "timeout"]
             [Some "timeout"; Some "refused"; Some "timeout"]).
    + repeat constructor; by eexists.
    + simpl. lia.
  - apply (Hall [Some "timeout"; Some "refused"]).
    + repeat constructor; by eexists.
    + simpl. lia.
    + simpl. lia.
Defined.

Lemma stateUpdateTick_timers err writes t s :
  (stateUpdateTick err writes t s).1.2
  = reset_stateUpdateTimer t (stateUpdateIntv t).
Proof.
  unfold stateUpdateTick.
  by destruct (currentBlockTemplate s), err.
Qed.

Lemma stateUpdateTick_log err writes t s :
  (stateUpdateTick err writes t s).1.1 =
  match currentBlockTemplate s with
  | Some tpl => writes ++ [(CName (config s), Height tpl, TDifficulty tpl)]
  | None => writes
  end.
Proof.
  unfold stateUpdateTick.
  by destruct (currentBlockTemplate s), err.
Qed.

Lemma stateUpdateLoop_timers errs : ∀ writes t s,
  stateUpdateIntv (stateUpdateLoop errs writes t s).1.2 = stateUpdateIntv t ∧
  (errs ≠ [] →
   stateUpdateTimer (stateUpdateLoop errs writes t s).1.2 = stateUpdateIntv t).
Proof.
  induction errs as [|err errs IH]; intros writes t s; [done|].
  rewrite stateUpdateLoop_cons, stateUpdateTick_timers.
  destruct (IH (stateUpdateTick err writes t s).1.1
              (reset_stateUpdateTimer t (stateUpdateIntv t))
              (stateUpdateTick err writes t s).2) as [Hintv Htimer].
  split; [done|]. intros _.
  destruct errs as [|err' errs]; [done|]. by apply Htimer.
Qed.

Lemma stateUpdateLoop_log errs : ∀ writes t s tpl,
  currentBlockTemplate s = Some tpl →
  (stateUpdateLoop errs writes t s).1.1
  = writes ++ replicate (length errs)
      (CName (config s), Height tpl, TDifficulty tpl).
Proof.
  induction errs as [|err errs IH]; intros writes t s tpl Htpl.
  - simpl. by rewrite app_nil_r.
  - rewrite stateUpdateLoop_cons, stateUpdateTick_log, Htpl.
    rewrite (IH _ _ _ tpl).
    + rewrite stateUpdateTick_server, Htpl.
      simpl. rewrite <- app_assoc. by destruct err.
    + rewrite stateUpdateTick_server, Htpl. by destruct err.
Qed.

Lemma stateUpdateLoop_idle errs : ∀ writes t s,
  currentBlockTemplate s = None →
  (stateUpdateLoop errs writes t s).1.1 = writes ∧
  (stateUpdateLoop errs writes t s).2 = s.
Proof.
  induction errs as [|err errs IH]; intros writes t s Htpl; [done|].
  rewrite stateUpdateLoop_cons, stateUpdateTick_log, stateUpdateTick_server, Htpl.
  by apply IH.
Qed.

(** X5.  A run of the state-update loop with a template in the cache adds
    one write per turn to the backend, each with the instance name and the
    height and difficulty of that template; with no template it adds none
    and leaves the server as it is.  After at least one turn the timer is
    armed with the state-update interval. *)
Theorem stateUpdateLoop_writes errs writes t s :
  ∃ writes' t' s',
    stateUpdateLoop errs writes t s = (writes', t', s') ∧
    (∀ tpl, currentBlockTemplate s = Some tpl →
       writes' = writes ++ replicate (length errs)
                   (CName (config s), Height tpl, TDifficulty tpl)) ∧
    (currentBlockTemplate s = None → writes' = writes ∧ s' = s) ∧
    (errs ≠ [] → stateUpdateTimer t' = stateUpdateIntv t).
Proof.
  pose proof (stateUpdateLoop_log errs writes t s) as Hlog.
  pose proof (stateUpdateLoop_idle errs writes t s) as Hidle.
  destruct (stateUpdateLoop_timers errs writes t s) as [_ Htimer].
  destruct (stateUpdateLoop errs writes t s) as [[writes' t'] s'].
  by exists writes', t', s'.
Qed.

(** Three turns with a template, then three without. *)
Lemma stateUpdateLoop_writes_witness :
  (stateUpdateLoop [None; Some "timeout"; None] [] demo_timers demo_srv_tpl).1.1
  = [("main", 19000000, 8000000000); ("main", 19000000, 8000000000);
     ("main", 19000000, 8000000000)] ∧
  (stateUpdateLoop [None; Some "timeout"; None] [] demo_timers demo_srv).1.1
  = [].
Proof.
  split.
  - destruct (stateUpdateLoop_writes [None; Some "timeout"; None] []
                demo_timers demo_srv_tpl) as (w & t & s & Hrun & Hsome & _).
    rewrite Hrun. simpl. exact (Hsome _ eq_refl).
  - destruct (stateUpdateLoop_writes [None; Some "timeout"; None] []
                demo_timers demo_srv) as (w & t & s & Hrun & _ & Hnone & _).
    rewrite Hrun. simpl. exact (proj1 (Hnone eq_refl)).
Defined.

(** ** The cleanup sweep, continued *)

Section SweepMore.
Implicit Types (m : gmap string addr) (h : gmap addr WorkDiff).
Implicit Types (k : string) (a : addr) (v : WorkDiff) (st : WorkState).

(** *** The store keeps its addresses *)

Lemma sweepEntry_store_None k st st' a :
  sweepEntry k st = Some st' → st'.2 !! a = None ↔ st.2 !! a = None.
Proof.
  destruct st as [m h]. intros Hstep.
  destruct (sweepEntry_cases _ _ _ _ Hstep)
    as [->|[(a' & v' & Hk' & Ha' & Hdel & Hpass & ->)
           |(a' & v' & Hk' & Ha' & Hdel & Hpass & ->)]]; simpl; try done.
  rewrite lookup_insert_None. split; [by intros [? _]|].
  intros Hnone. split; [done|]. intros ->. congruence.
Qed.

Lemma cleanSweepIn_store_None ks : ∀ st st' a,
  cleanSweepIn ks st = Some st' → st'.2 !! a = None ↔ st.2 !! a = None.
Proof.
  induction ks as [|k ks IH]; intros st st' a; simpl.
  - by intros [= <-].
  - destruct (sweepEntry k st) as [st1|] eqn:Hstep; [|done].
    intros Hrest. rewrite (IH _ _ _ Hrest).
    by eapply sweepEntry_store_None.
Qed.

(** Every record after a sweep is an aged record of before. *)
Lemma cleanSweepIn_aged_back ks st st' a v' :
  cleanSweepIn ks st = Some st' →
  st'.2 !! a = Some v' →
  ∃ v, st.2 !! a = Some v ∧ aged v v'.
Proof.
  intros Hrun Ha'.
  destruct (st.2 !! a) as [v|] eqn:Ha.
  - destruct (cleanSweepIn_sweeps_to _ _ _ Hrun) as [_ Hstore].
    destruct (Hstore a v Ha) as (v1 & Ha1 & Haged).
    exists v. split; [done|]. congruence.
  - apply (cleanSweepIn_store_None _ _ _ _ Hrun) in Ha. congruence.
Qed.

Lemma cleanSweepIn_entry_back ks st st' k v' :
  cleanSweepIn ks st = Some st' →
  entry st' k = Some v' →
  ∃ v, entry st k = Some v ∧ aged v v'.
Proof.
  intros Hrun Hentry. apply entry_Some in Hentry as (a & Hk' & Ha').
  destruct (cleanSweepIn_aged_back _ _ _ _ _ Hrun Ha') as (v & Ha & Haged).
  destruct (cleanSweepIn_sweeps_to _ _ _ Hrun) as [Hsub _].
  exists v. split; [|done]. apply entry_Some. exists a.
  split; [|done]. by eapply lookup_weaken.
Qed.

(** *** A nil pointer *)

Lemma cleanSweepIn_nil ks : ∀ m h k a,
  k ∈ ks → m !! k = Some a → h !! a = None →
  cleanSweepIn ks (m, h) = None.
Proof.
  induction ks as [|k' ks IH]; intros m h k a Hin Hk Ha;
    [by apply elem_of_nil in Hin|].
  simpl. destruct (decide (k' = k)) as [->|Hne].
  - unfold sweepEntry. simpl. by rewrite Hk, Ha.
  - apply elem_of_cons in Hin as [->|Hin]; [done|].
    destruct (sweepEntry k' (m, h)) as [[m1 h1]|] eqn:Hstep; [|done].
    apply (IH m1 h1 k a); [done| |].
    + destruct (sweepEntry_cases _ _ _ _ Hstep)
        as [?|[(a' & v' & Hk' & Ha' & Hdel & Hpass & ?)
               |(a' & v' & Hk' & Ha' & Hdel & Hpass & ?)]]; simplify_eq; try done.
      by rewrite lookup_delete_ne.
    + by apply (sweepEntry_store_None _ _ _ a Hstep).
Qed.

(** X6.  A sweep runs to its end exactly when no pointer of the map is nil:
    one nil pointer makes the sweep panic, whatever the order. *)
Theorem cleanSweepIn_completes_iff m h ks :
  enumerates ks m →
  is_Some (cleanSweepIn ks (m, h)) ↔ store_closed m h.
Proof.
  intros Henum. split.
  - intros Hrun k a Hk.
    destruct (h !! a) as [v|] eqn:Ha; [by eexists|].
    rewrite (cleanSweepIn_nil ks m h k a) in Hrun; [by destruct Hrun|..|done|done].
    apply (enumerates_elem ks m k Henum). by eexists.
  - intros Hcl. destruct (cleanSweepIn_closed ks m h Hcl) as (m' & h' & -> & _).
    by eexists.
Qed.

Lemma cleanSweepIn_completes_iff_witness :
  is_Some (cleanSweepIn ["carol"; "bob"; "alice"] demo_work) ∧
  cleanSweepIn ["alice"; "dave"] demo_work_nil = None.
Proof.
  split.
  - apply (cleanSweepIn_completes_iff demo_work.1 demo_work.2).
    + apply (bool_decide_unpack _). vm_compute. exact I.
    + apply (bool_decide_unpack _). vm_compute. exact I.
  - destruct (cleanSweepIn ["alice"; "dave"] demo_work_nil) as [st'|] eqn:Hrun;
      [exfalso|reflexivity].
    assert (Hcl : store_closed demo_work_nil.1 demo_work_nil.2).
    { apply (cleanSweepIn_completes_iff demo_work_nil.1 demo_work_nil.2
               ["alice"; "dave"]).
      - apply (bool_decide_unpack _). vm_compute. exact I.
      - exists st'. exact Hrun. }
    destruct (Hcl "dave" 9%positive eq_refl) as [v Hv]. discriminate Hv.
Defined.

(** *** Maps without marked entries *)

(** X7.  A sweep over a map in which no entry is marked [IsDel] changes
    neither the map nor the store. *)
Theorem cleanSweepIn_all_live ks m h :
  store_closed m h →
  (∀ k v, entry (m, h) k = Some v → IsDel v = false) →
  cleanSweepIn ks (m, h) = Some (m, h).
Proof.
  intros Hcl Hlive. induction ks as [|k ks IH]; simpl; [done|].
  destruct (m !! k) as [a|] eqn:Hk.
  - destruct (Hcl k a Hk) as [v Ha].
    rewrite (sweepEntry_live k m h a v); [done..|].
    apply (Hlive k). apply entry_Some. by exists a.
  - unfold sweepEntry. simpl. by rewrite Hk.
Qed.

Lemma cleanSweepIn_all_live_witness :
  cleanSweepIn ["bob"; "nobody"] demo_work_live = Some demo_work_live.
Proof.
  apply (cleanSweepIn_all_live ["bob"; "nobody"] demo_work_live.1
           demo_work_live.2).
  - apply (bool_decide_unpack _). vm_compute. exact I.
  - intros k v Hentry. apply entry_Some in Hentry as (a & Hk & Ha).
    simpl in Hk, Ha.
    apply lookup_singleton_Some in Hk as [_ <-].
    apply lookup_singleton_Some in Ha as [_ <-]. reflexivity.
Defined.

(** *** What is left after one sweep and after two *)

Lemma sweepEntry_visited k st st' v :
  sweepEntry k st = Some st' →
  entry st' k = Some v → IsDel v = true → PassDel v = false.
Proof.
  destruct st as [m h]. unfold sweepEntry. simpl.
  destruct (m !! k) as [a|] eqn:Hk.
  - destruct (h !! a) as [v0|] eqn:Ha; [|done].
    destruct (IsDel v0) eqn:Hdel, (PassDel v0) eqn:Hpass; simpl;
      intros [= <-] Hentry; apply entry_Some in Hentry as (a' & Hk' & Ha');
      simpl in *.
    + simplify_eq. rewrite lookup_insert_eq in Ha'. by simplify_eq.
    + by rewrite lookup_delete_eq in Hk'.
    + simplify_eq. congruence.
    + simplify_eq. congruence.
  - intros [= <-] Hentry. apply entry_Some in Hentry as (a' & Hk' & _).
    simpl in *. congruence.
Qed.

Lemma aged_PassDel v v' : aged v v' → PassDel v = false → PassDel v' = false.
Proof. by intros [->|[_ ->]]. Qed.

Lemma cleanSweepIn_visited ks : ∀ st st' k v,
  k ∈ ks →
  cleanSweepIn ks st = Some st' →
  entry st' k = Some v → IsDel v = true → PassDel v = false.
Proof.
  induction ks as [|k' ks IH]; intros st st' k v Hin;
    [by apply elem_of_nil in Hin|].
  simpl. destruct (sweepEntry k' st) as [st1|] eqn:Hstep; [|done].
  intros Hrest Hentry Hdel.
  destruct (decide (k ∈ ks)) as [Hin'|Hnotin]; [by eapply IH|].
  apply elem_of_cons in Hin as [->|Hin]; [|done].
  destruct (cleanSweepIn_entry_back _ _ _ _ _ Hrest Hentry) as (v1 & Hentry1 & Haged).
  apply (aged_PassDel v1 v Haged).
  apply (sweepEntry_visited k' st st1 v1 Hstep Hentry1).
  destruct (aged_fields _ _ Haged) as [_ Hsame]. congruence.
Qed.

Lemma cleanSweepIn_no_grace ks m h st' k v :
  enumerates ks m →
  cleanSweepIn ks (m, h) = Some st' →
  entry st' k = Some v → IsDel v = true → PassDel v = false.
Proof.
  intros Henum Hrun Hentry Hdel.
  eapply (cleanSweepIn_visited ks); [|done..].
  apply (enumerates_elem ks m k Henum).
  apply entry_Some in Hentry as (a & Hk & _).
  destruct (cleanSweepIn_sweeps_to _ _ _ Hrun) as [Hsub _].
  exists a. by eapply lookup_weaken.
Qed.

(** X8.  After a sweep, every entry that is still in the map and marked
    [IsDel] has [PassDel] false: the next sweep will remove it. *)
Theorem cleanSweepIn_leaves_no_grace m h ks :
  store_closed m h →
  enumerates ks m →
  ∃ st', cleanSweepIn ks (m, h) = Some st' ∧
         ∀ k v, entry st' k = Some v → IsDel v = true → PassDel v = false.
Proof.
  intros Hcl Henum.
  destruct (cleanSweepIn_closed ks m h Hcl) as (m1 & h1 & Hrun & _).
  exists (m1, h1). split; [done|]. intros k v.
  by eapply cleanSweepIn_no_grace.
Qed.

Lemma cleanSweepIn_leaves_no_grace_witness :
  ∃ st' v, cleanSweepIn ["bob"; "carol"; "alice"] demo_work = Some st' ∧
           entry st' "alice" = Some v ∧ PassDel v = false.
Proof.
  destruct (cleanSweepIn_leaves_no_grace demo_work.1 demo_work.2
              ["bob"; "carol"; "alice"]) as (st' & Hrun & Hpost).
  - apply (bool_decide_unpack _). vm_compute. exact I.
  - apply (bool_decide_unpack _). vm_compute. exact I.
  - assert (Hentry : entry st' "alice" = Some (mkWorkDiff 4000 false true)).
    { pose proof Hrun as Hrun'. vm_compute in Hrun'.
      injection Hrun' as <-. reflexivity. }
    exists st', (mkWorkDiff 4000 false true).
    split; [exact Hrun|]. split; [exact Hentry|].
    apply (Hpost "alice" _ Hentry). reflexivity.
Defined.

(** X9.  After two sweeps in a row, with nothing touching the map between
    them, no entry marked [IsDel] is left in the map. *)
Theorem cleanSweepIn_twice_removes_marked m h ks1 :
  store_closed m h →
  enumerates ks1 m →
  ∃ st', cleanSweepIn ks1 (m, h) = Some st' ∧
    ∀ ks2, enumerates ks2 st'.1 →
      ∃ st'', cleanSweepIn ks2 st' = Some st'' ∧
              ∀ k v, entry st'' k = Some v → IsDel v = false.
Proof.
  intros Hcl Henum.
  destruct (cleanSweepIn_closed ks1 m h Hcl) as (m1 & h1 & Hrun1 & Hcl1).
  exists (m1, h1). split; [done|]. intros ks2 Henum2.
  destruct (cleanSweepIn_closed ks2 m1 h1 Hcl1) as (m2 & h2 & Hrun2 & _).
  exists (m2, h2). split; [done|]. intros k v2 Hentry2.
  destruct (IsDel v2) eqn:Hdel2; [exfalso|done].
  destruct (cleanSweepIn_entry_back _ _ _ _ _ Hrun2 Hentry2)
    as (v1 & Hentry1 & Haged).
  destruct (aged_fields _ _ Haged) as [_ Hsame].
  assert (IsDel v1 = true) as Hdel1 by congruence.
  assert (PassDel v1 = false) as Hpass1
    by by eapply (cleanSweepIn_no_grace ks1 m h (m1, h1) k v1).
  apply entry_Some in Hentry1 as (a & Hk1 & Ha1).
  apply entry_Some in Hentry2 as (a2 & Hk2 & _). simpl in *.
  assert (m2 !! k = None) as Hgone; [|congruence].
  apply (cleanSweepIn_deletes ks2 m1 h1 (m2, h2) k a v1); try done.
  apply (enumerates_elem ks2 m1 k Henum2). by eexists.
Qed.

Lemma cleanSweepIn_twice_removes_marked_witness :
  ∃ st' st'',
    cleanSweepIn ["bob"; "carol"; "alice"] demo_work = Some st' ∧
    cleanSweepIn ["alice"; "bob"] st' = Some st'' ∧
    ∀ k v, entry st'' k = Some v → IsDel v = false.
Proof.
  destruct (cleanSweepIn_twice_removes_marked demo_work.1 demo_work.2
              ["bob"; "carol"; "alice"]) as (st' & Hrun & Hnext).
  - apply (bool_decide_unpack _). vm_compute. exact I.
  - apply (bool_decide_unpack _). vm_compute. exact I.
  - destruct (Hnext ["alice"; "bob"]) as (st'' & Hrun2 & Hlive).
    { pose proof Hrun as Hrun'. vm_compute in Hrun'. injection Hrun' as <-.
      apply (bool_decide_unpack _). vm_compute. exact I. }
    exists st', st''. split; [exact Hrun|]. split; [exact Hrun2 | exact Hlive].
Defined.

(** *** The order of the iteration *)

Lemma unshared_all_inj m :
  unshared_all m ↔
  ∀ k1 k2 a, m !! k1 = Some a → m !! k2 = Some a → k1 = k2.
Proof.
  split.
  - intros Hall k1 k2 a Hk1 Hk2. symmetry. by apply (Hall k1 a Hk1 k2 a).
  - intros Hinj k a0 Hk k' a Hk' Hka. by apply (Hinj k' k a).
Qed.

Lemma unshared_all_subseteq m m' : m' ⊆ m → unshared_all m → unshared_all m'.
Proof.
  intros Hsub Hall. apply unshared_all_inj. intros k1 k2 a Hk1 Hk2.
  apply (proj1 (unshared_all_inj m) Hall k1 k2 a); by eapply lookup_weaken.
Qed.

(** The iterations at two keys with records of their own commute. *)
Lemma sweepEntry_comm k1 k2 st :
  unshared_all st.1 →
  sweepEntry k1 st ≫= sweepEntry k2 = sweepEntry k2 st ≫= sweepEntry k1.
Proof.
  destruct st as [m h]. simpl. intros Hall.
  pose proof (proj1 (unshared_all_inj m) Hall) as Hinj.
  destruct (decide (k1 = k2)) as [->|Hne]; [done|].
  unfold sweepEntry. simpl.
  destruct (m !! k1) as [a1|] eqn:Hk1, (m !! k2) as [a2|] eqn:Hk2; simpl.
  - assert (a1 ≠ a2) as Hna by (intros ->; by apply Hne, (Hinj k1 k2 a2)).
    destruct (h !! a1) as [[d1 p1 i1]|] eqn:Ha1,
             (h !! a2) as [[d2 p2 i2]|] eqn:Ha2; simpl;
      try destruct i1, p1; try destruct i2, p2; simpl;
      repeat (rewrite ?lookup_delete_ne, ?lookup_insert_ne,
                ?Hk1, ?Hk2, ?Ha1, ?Ha2 by done; simpl);
      try done.
    + by rewrite insert_insert_ne.
    + by rewrite delete_delete.
  - destruct (h !! a1) as [[d1 p1 i1]|] eqn:Ha1; simpl;
      [|by rewrite Hk1, Ha1].
    destruct i1, p1; simpl;
      repeat (rewrite ?lookup_delete_ne, ?Hk1, ?Hk2, ?Ha1 by done; simpl);
      done.
  - destruct (h !! a2) as [[d2 p2 i2]|] eqn:Ha2; simpl;
      [|by rewrite Hk2, Ha2].
    destruct i2, p2; simpl;
      repeat (rewrite ?lookup_delete_ne, ?Hk1, ?Hk2, ?Ha2 by done; simpl);
      done.
  - by rewrite Hk1, Hk2.
Qed.

Lemma cleanSweepIn_two k1 k2 ks st :
  cleanSweepIn (k1 :: k2 :: ks) st
  = (sweepEntry k1 st ≫= sweepEntry k2) ≫= cleanSweepIn ks.
Proof.
  simpl. destruct (sweepEntry k1 st) as [st1|]; simpl; [|done].
  by destruct (sweepEntry k2 st1).
Qed.

Lemma cleanSweepIn_perm ks1 ks2 :
  ks1 ≡ₚ ks2 →
  ∀ st, unshared_all st.1 → cleanSweepIn ks1 st = cleanSweepIn ks2 st.
Proof.
  induction 1 as [|k ks1 ks2 Hperm IH|k1 k2 ks|ks1 ks2 ks3 Hp1 IH1 Hp2 IH2];
    intros st Hinj.
  - done.
  - simpl. destruct (sweepEntry k st) as [st1|] eqn:Hstep; [|done].
    apply IH. eapply unshared_all_subseteq; [|done].
    by destruct (sweepEntry_sweeps_to _ _ _ Hstep).
  - by rewrite !cleanSweepIn_two, sweepEntry_comm.
  - by rewrite IH1, IH2.
Qed.

(** X10.  When no two keys share a record, the outcome of a sweep (the map
    and the store it leaves, or its panic) does not depend on the order in
    which [range] produces the keys. *)
Theorem cleanSweepIn_order_irrelevant m h ks1 ks2 :
  unshared_all m →
  enumerates ks1 m →
  enumerates ks2 m →
  cleanSweepIn ks1 (m, h) = cleanSweepIn ks2 (m, h).
Proof.
  intros Hinj [Hnd1 Hdom1] [Hnd2 Hdom2].
  apply cleanSweepIn_perm; [|done].
  apply NoDup_Permutation; [done..|].
  intros k. by rewrite <- !(elem_of_list_to_set (C := gset string)), Hdom1, Hdom2.
Qed.

Lemma cleanSweepIn_order_irrelevant_witness :
  cleanSweepIn ["alice"; "bob"; "carol"] demo_work
  = cleanSweepIn ["carol"; "bob"; "alice"] demo_work.
Proof.
  apply (cleanSweepIn_order_irrelevant demo_work.1 demo_work.2).
  - apply (bool_decide_unpack _). vm_compute. exact I.
  - apply (bool_decide_unpack _). vm_compute. exact I.
  - apply (bool_decide_unpack _). vm_compute. exact I.
Defined.

(** With a shared record the order shows: of two keys that point to one
    record in its grace period, the one that [range] produces first stays. *)
Example cleanup_shared_record_order :
  let st : WorkState :=
    (<["alice" := 1%positive]> (<["alice.rig2" := 1%positive]> ∅),
     <[1%positive := mkWorkDiff 4000 true true]> ∅) in
  (λ st', map_to_list st'.1) <$> cleanSweepIn ["alice.rig2"; "alice"] st
  = Some [("alice.rig2", 1%positive)].
Proof. vm_compute. reflexivity. Qed.

(** *** What a sweep never does *)

(** X11.  A sweep never adds a key and never points a key to another
    record; it neither adds a record to the store nor drops one; and it
    never sets a [PassDel] that was false. *)
Theorem cleanSweepIn_only_removes_and_ages ks st st' :
  cleanSweepIn ks st = Some st' →
  st'.1 ⊆ st.1 ∧
  dom st'.2 = dom st.2 ∧
  ∀ a v', st'.2 !! a = Some v' →
    ∃ v, st.2 !! a = Some v ∧
         Difficulty v' = Difficulty v ∧ IsDel v' = IsDel v ∧
         (PassDel v = false → PassDel v' = false).
Proof.
  intros Hrun. split; [by destruct (cleanSweepIn_sweeps_to _ _ _ Hrun)|]. split.
  - apply set_eq. intros a. rewrite !elem_of_dom, <- !not_eq_None_Some.
    by rewrite (cleanSweepIn_store_None _ _ _ a Hrun).
  - intros a v' Ha'.
    destruct (cleanSweepIn_aged_back _ _ _ _ _ Hrun Ha') as (v & Ha & Haged).
    exists v. split; [done|].
    destruct (aged_fields _ _ Haged) as [Hd Hi].
    split; [done|]. split; [done|]. by apply aged_PassDel.
Qed.

Lemma cleanSweepIn_only_removes_and_ages_witness :
  ∃ st', cleanSweepIn ["bob"; "carol"; "alice"] demo_work = Some st' ∧
         st'.1 ⊆ demo_work.1 ∧ dom st'.2 = dom demo_work.2.
Proof.
  destruct (cleanSweepIn ["bob"; "carol"; "alice"] demo_work) as [st'|] eqn:Hrun;
    [|vm_compute in Hrun; discriminate Hrun].
  destruct (cleanSweepIn_only_removes_and_ages _ _ _ Hrun) as (Hsub & Hdom & _).
  exists st'. split; [reflexivity|]. split; [exact Hsub | exact Hdom].
Defined.
End SweepMore.

(** ** Start-up, continued *)

Section StartUpMore.
Variable GetTargetHex : Z → string.
Variable MustParseDuration : string → option Z.
Variable fetchBlockTemplate : ProxyServer → ProxyServer.

(** The run of [NewProxy], test by test.  A run that returns has passed
    every test; the trace and the result are then as written here. *)
Lemma NewProxy_run cfg tr :
  NewProxy GetTargetHex MustParseDuration fetchBlockTemplate cfg tr =
  if bool_decide (String.length (CName cfg) = 0%nat) then
    (tr, Fatal "You must set instance name")
  else if PrimFloat.ltb (Stratum_MinDiffFloat cfg) 0x1.999999999999ap-4%float
          && bool_decide (Stratum_Protocol cfg = "EthereumStratum") then
    (tr ++ [EvPolicyStart],
     Fatal "For EthereumStratum protocol type, the minimum float difficulty must be set to at least 0.1")
  else
    match CUpstream cfg with
    | [] => (tr ++ configEvents cfg, Panicked)
    | v :: _ =>
        let pre := tr ++ headEvents cfg (toClient v) in
        if negb (Stratum_Enabled cfg) then
          (pre, Fatal "Stratum endpoint is not configured properly.")
        else if negb (bool_decide (Stratum_Protocol cfg = "Stratum-Proxy"))
                && negb (bool_decide (Stratum_Protocol cfg = "EthereumStratum")) then
          (pre, Fatal "Please choose either Stratum-Proxy or EthereumStratum protocol for your stratum endpoint.")
        else
          let pre := pre ++ [listenerEvent cfg; EvFetchBlockTemplate] in
          match MustParseDuration (Proxy_HashrateExpiration cfg),
                MustParseDuration (Proxy_BlockRefreshInterval cfg) with
          | Some d, Some refreshI =>
              let pre := pre ++ [EvNewTimer refreshI;
                                 EvLog "Set block refresh every %v" [LInt refreshI]] in
              match MustParseDuration (Proxy_CleanInterval cfg) with
              | Some cleanI =>
                  let pre := pre ++ [EvNewTimer cleanI] in
                  match MustParseDuration (UpstreamCheckInterval cfg) with
                  | Some checkI =>
                      let pre := pre ++ [EvNewTimer checkI] in
                      match MustParseDuration (Proxy_StateUpdateInterval cfg) with
                      | Some stateUpdateI =>
                          (tr ++ headEvents cfg (toClient v)
                              ++ [listenerEvent cfg]
                              ++ tailEvents refreshI cleanI checkI stateUpdateI,
                           Done
                             (set_hashrateExpiration
                                (fetchBlockTemplate
                                   (set_sessions
                                      (set_upstreams
                                         (set_nonceSize
                                            (set_maxDiffFloat
                                               (newServer GetTargetHex cfg)
                                               (Stratum_MaxDiffFloat cfg))
                                            (if Stratum_NonceSize cfg <? 2
                                             then 2 else Stratum_NonceSize cfg))
                                         (toClient <$> CUpstream cfg))
                                      true))
                                d,
                              mkTimers refreshI cleanI checkI stateUpdateI
                                       refreshI cleanI checkI stateUpdateI))
                      | None => (pre, Panicked)
                      end
                  | None => (pre, Panicked)
                  end
              | None => (pre, Panicked)
              end
          | _, _ => (pre, Panicked)
          end
    end.
Proof.
  unfold NewProxy. cbv zeta.
  run_head. destruct (bool_decide (String.length (CName cfg) = 0%nat)); [done|].
  do 2 run_head.
  change (minDiffFloat (newServer GetTargetHex cfg))
    with (Stratum_MinDiffFloat cfg).
  destruct (PrimFloat.ltb _ _ && bool_decide _); [done|].
  do 5 run_head. rewrite rpc_first_upstream by done.
  unfold headEvents, configEvents.
  destruct (CUpstream cfg) as [|v us] eqn:Hus; cbv beta iota.
  - simpl. by rewrite <- !app_assoc.
  - rewrite <- Hus. do 3 run_head.
    destruct (Stratum_Enabled cfg); simpl negb; cbv iota;
      [|by rewrite <- !app_assoc].
    unfold listenerEvent.
    destruct (bool_decide (Stratum_Protocol cfg = "Stratum-Proxy"));
      [|destruct (bool_decide (Stratum_Protocol cfg = "EthereumStratum"))];
      simpl negb; simpl andb; cbv iota;
      try (by rewrite <- !app_assoc);
      do 2 run_head;
      (destruct (MustParseDuration (Proxy_HashrateExpiration cfg));
         [|by rewrite <- !app_assoc]);
      run_head;
      (destruct (MustParseDuration (Proxy_BlockRefreshInterval cfg));
         [|by rewrite <- !app_assoc]);
      do 3 run_head;
      (destruct (MustParseDuration (Proxy_CleanInterval cfg));
         [|by rewrite <- !app_assoc]);
      do 2 run_head;
      (destruct (MustParseDuration (UpstreamCheckInterval cfg));
         [|by rewrite <- !app_assoc]);
      do 2 run_head;
      (destruct (MustParseDuration (Proxy_StateUpdateInterval cfg));
         [|by rewrite <- !app_assoc]);
      do 5 run_head;
      by rewrite <- !app_assoc.
Qed.

Lemma string_length_zero (x : string) : String.length x = 0%nat ↔ x = "".
Proof. by destruct x. Qed.

Lemma invalidConfig_tests cfg :
  ¬ invalidConfig cfg ↔
  bool_decide (String.length (CName cfg) = 0%nat) = false ∧
  PrimFloat.ltb (Stratum_MinDiffFloat cfg) 0x1.999999999999ap-4%float
    && bool_decide (Stratum_Protocol cfg = "EthereumStratum") = false ∧
  negb (Stratum_Enabled cfg) = false ∧
  negb (bool_decide (Stratum_Protocol cfg = "Stratum-Proxy"))
    && negb (bool_decide (Stratum_Protocol cfg = "EthereumStratum")) = false.
Proof.
  unfold invalidConfig.
  rewrite bool_decide_eq_false, string_length_zero.
  destruct (Stratum_Enabled cfg),
    (PrimFloat.ltb (Stratum_MinDiffFloat cfg) 0x1.999999999999ap-4%float);
    repeat case_bool_decide; simpl; intuition congruence.
Qed.

Lemma upstreamEvents_no_later us : List.filter laterStep (upstreamEvents us) = [].
Proof. induction us as [|v us IH]; [done|]. simpl. apply IH. Qed.

Lemma upstreamEvents_no_fetch us : List.filter isFetch (upstreamEvents us) = [].
Proof. induction us as [|v us IH]; [done|]. simpl. apply IH. Qed.

(** X12.  [NewProxy] returns a server exactly when the configuration is not
    one of those it refuses, at least one upstream is configured, and the
    five intervals (hashrate expiration, block refresh, clean, upstream
    check, state update) all parse. *)
Theorem NewProxy_returns_iff cfg :
  (∃ tr s t,
     NewProxy GetTargetHex MustParseDuration fetchBlockTemplate cfg []
       = (tr, Done (s, t))) ↔
  ¬ invalidConfig cfg ∧
  CUpstream cfg ≠ [] ∧
  is_Some (MustParseDuration (Proxy_HashrateExpiration cfg)) ∧
  is_Some (MustParseDuration (Proxy_BlockRefreshInterval cfg)) ∧
  is_Some (MustParseDuration (Proxy_CleanInterval cfg)) ∧
  is_Some (MustParseDuration (UpstreamCheckInterval cfg)) ∧
  is_Some (MustParseDuration (Proxy_StateUpdateInterval cfg)).
Proof.
  rewrite NewProxy_run, invalidConfig_tests. cbv zeta.
  destruct (bool_decide (String.length (CName cfg) = 0%nat));
    [split; [by intros (?&?&?&?)|by intros [[? _] _]]|].
  destruct (PrimFloat.ltb _ _ && bool_decide _);
    [split; [by intros (?&?&?&?)|by intros [(_ & ? & _) _]]|].
  destruct (CUpstream cfg) as [|v us];
    [split; [by intros (?&?&?&?)|by intros (_ & ? & _)]|].
  destruct (negb (Stratum_Enabled cfg));
    [split; [by intros (?&?&?&?)|by intros [(_ & _ & ? & _) _]]|].
  destruct (negb _ && negb _);
    [split; [by intros (?&?&?&?)|by intros [(_ & _ & _ & ?) _]]|].
  destruct (MustParseDuration (Proxy_HashrateExpiration cfg));
    [|split; [by intros (?&?&?&?)|by intros (_ & _ & [? ?] & _)]].
  destruct (MustParseDuration (Proxy_BlockRefreshInterval cfg));
    [|split; [by intros (?&?&?&?)|by intros (_ & _ & _ & [? ?] & _)]].
  destruct (MustParseDuration (Proxy_CleanInterval cfg));
    [|split; [by intros (?&?&?&?)|by intros (_ & _ & _ & _ & [? ?] & _)]].
  destruct (MustParseDuration (UpstreamCheckInterval cfg));
    [|split; [by intros (?&?&?&?)|by intros (_ & _ & _ & _ & _ & [? ?] & _)]].
  destruct (MustParseDuration (Proxy_StateUpdateInterval cfg));
    [|split; [by intros (?&?&?&?)|by intros (_ & _ & _ & _ & _ & _ & [? ?])]].
  split; [|by eexists _, _, _].
  intros _. by repeat split; try eexists.
Qed.

(** A run that has returned has passed every test of [NewProxy_run]. *)
Ltac returned H :=
  rewrite NewProxy_run in H; cbv zeta in H;
  destruct (bool_decide (String.length _ = 0%nat)) eqn:Hname;
    [discriminate H|];
  destruct (PrimFloat.ltb _ _ && bool_decide _) eqn:Hes; [discriminate H|];
  destruct (CUpstream _) as [|v us] eqn:Hus; [discriminate H|];
  destruct (negb (Stratum_Enabled _)) eqn:Hen; [discriminate H|];
  destruct (negb _ && negb _) eqn:Hproto; [discriminate H|];
  destruct (MustParseDuration (Proxy_HashrateExpiration _)) as [d|] eqn:Hd;
    [|discriminate H];
  destruct (MustParseDuration (Proxy_BlockRefreshInterval _)) as [refreshI|]
    eqn:Hrefresh; [|discriminate H];
  destruct (MustParseDuration (Proxy_CleanInterval _)) as [cleanI|]
    eqn:Hclean; [|discriminate H];
  destruct (MustParseDuration (UpstreamCheckInterval _)) as [checkI|]
    eqn:Hcheck; [|discriminate H];
  destruct (MustParseDuration (Proxy_StateUpdateInterval _)) as [stateUpdateI|]
    eqn:Hstate; [|discriminate H];
  injection H as <- <- <-.

(** X13.  The server that [NewProxy] returns is what [fetchBlockTemplate]
    made of a server with: the configuration, an empty template cache, a
    counter at zero, the index 0, one client per configured upstream in the
    configured order (so that [rpc()] has a client), a nonce size of at
    least 2, a session set, an empty work-difficulty map and the difficulty
    bounds of the configuration; with the parsed hashrate expiration set
    afterwards. *)
Theorem NewProxy_builds cfg tr tr' s t :
  NewProxy GetTargetHex MustParseDuration fetchBlockTemplate cfg tr
    = (tr', Done (s, t)) →
  ∃ p d,
    s = set_hashrateExpiration (fetchBlockTemplate p) d ∧
    MustParseDuration (Proxy_HashrateExpiration cfg) = Some d ∧
    config p = cfg ∧
    blockTemplate p = None ∧
    failsCount p = 0 ∧
    upstream p = 0 ∧
    upstreams p = toClient <$> CUpstream cfg ∧
    is_Some (rpc p) ∧
    nonceSize p = Z.max 2 (Stratum_NonceSize cfg) ∧
    sessions p = true ∧
    workDiff p = ∅ ∧ workStore p = ∅ ∧
    minDiffFloat p = Stratum_MinDiffFloat cfg ∧
    maxDiffFloat p = Stratum_MaxDiffFloat cfg ∧
    diff p = GetTargetHex (Proxy_Difficulty cfg).
Proof.
  intros Hrun. returned Hrun.
  eexists _, d. split_and!; try done; try by eexists.
  simpl. destruct (Z.ltb_spec (Stratum_NonceSize cfg) 2); lia.
Qed.

(** X14.  When [NewProxy] returns, each of the four timers is armed with
    its own parsed interval: block refresh, clean, upstream check, state
    update. *)
Theorem NewProxy_arms_timers cfg tr tr' s t :
  NewProxy GetTargetHex MustParseDuration fetchBlockTemplate cfg tr
    = (tr', Done (s, t)) →
  MustParseDuration (Proxy_BlockRefreshInterval cfg) = Some (refreshTimer t) ∧
  MustParseDuration (Proxy_CleanInterval cfg) = Some (cleanTimer t) ∧
  MustParseDuration (UpstreamCheckInterval cfg) = Some (checkTimer t) ∧
  MustParseDuration (Proxy_StateUpdateInterval cfg) = Some (stateUpdateTimer t) ∧
  refreshIntv t = refreshTimer t ∧
  cleanIntv t = cleanTimer t ∧
  checkIntv t = checkTimer t ∧
  stateUpdateIntv t = stateUpdateTimer t.
Proof. intros Hrun. by returned Hrun. Qed.

Lemma headEvents_no_fetch cfg c : List.filter isFetch (headEvents cfg c) = [].
Proof.
  unfold headEvents, configEvents.
  by rewrite !List.filter_app, upstreamEvents_no_fetch.
Qed.

Lemma headEvents_no_later cfg c : List.filter laterStep (headEvents cfg c) = [].
Proof.
  unfold headEvents, configEvents.
  by rewrite !List.filter_app, upstreamEvents_no_later.
Qed.

(** X15.  Of the steps that follow the validation, a run of [NewProxy] that
    returns has made exactly these, in this order: one listener (that of
    Stratum-Proxy when this is the protocol, and that of EthereumStratum
    otherwise), one template fetch, the four timers (refresh, clean, check,
    state update) and the four loops. *)
Theorem NewProxy_steps cfg tr s t :
  NewProxy GetTargetHex MustParseDuration fetchBlockTemplate cfg []
    = (tr, Done (s, t)) →
  List.filter laterStep tr =
  [if bool_decide (Stratum_Protocol cfg = "Stratum-Proxy")
   then EvGoListenSP else EvGoListenES;
   EvFetchBlockTemplate;
   EvNewTimer (refreshIntv t); EvNewTimer (cleanIntv t);
   EvNewTimer (checkIntv t); EvNewTimer (stateUpdateIntv t);
   EvGo CleanLoop; EvGo RefreshLoop; EvGo CheckLoop; EvGo StateUpdateLoop].
Proof.
  intros Hrun. returned Hrun.
  simpl. rewrite !List.filter_app, upstreamEvents_no_later. simpl.
  unfold listenerEvent. by case_bool_decide.
Qed.

(** X16.  With a non-empty instance name and the EthereumStratum test
    passed, a configuration without upstreams makes [NewProxy] panic at
    line 99, whatever the rest of the configuration says, before any
    listener, fetch, timer or loop. *)
Theorem NewProxy_no_upstream_panics cfg :
  CName cfg ≠ "" →
  ¬ (Stratum_Protocol cfg = "EthereumStratum" ∧
     PrimFloat.ltb (Stratum_MinDiffFloat cfg) 0x1.999999999999ap-4%float = true) →
  CUpstream cfg = [] →
  ∃ tr,
    NewProxy GetTargetHex MustParseDuration fetchBlockTemplate cfg []
      = (tr, Panicked) ∧
    Forall (λ e, laterStep e = false) tr.
Proof.
  intros Hname Hes Hus. rewrite NewProxy_run, Hus.
  rewrite bool_decide_eq_false_2 by by rewrite string_length_zero.
  destruct (PrimFloat.ltb _ _) eqn:Hlt; simpl.
  - rewrite bool_decide_eq_false_2 by (intros Hp; by apply Hes).
    eexists. split; [done|]. unfold configEvents. rewrite Hus. by repeat constructor.
  - eexists. split; [done|]. unfold configEvents. rewrite Hus. by repeat constructor.
Qed.

(** X17.  With a configuration that is not refused and an upstream, an
    interval that does not parse makes [NewProxy] panic only after the
    listener has been started and the template has been fetched. *)
Theorem NewProxy_bad_interval_panics_late cfg :
  ¬ invalidConfig cfg →
  CUpstream cfg ≠ [] →
  MustParseDuration (Proxy_HashrateExpiration cfg) = None ∨
  MustParseDuration (Proxy_BlockRefreshInterval cfg) = None ∨
  MustParseDuration (Proxy_CleanInterval cfg) = None ∨
  MustParseDuration (UpstreamCheckInterval cfg) = None ∨
  MustParseDuration (Proxy_StateUpdateInterval cfg) = None →
  ∃ tr,
    NewProxy GetTargetHex MustParseDuration fetchBlockTemplate cfg []
      = (tr, Panicked) ∧
    (if bool_decide (Stratum_Protocol cfg = "Stratum-Proxy")
     then EvGoListenSP else EvGoListenES) ∈ tr ∧
    refreshes tr = 1%nat.
Proof.
  intros Hvalid Hus Hbad.
  apply invalidConfig_tests in Hvalid as (Hname & Hes & Hen & Hproto).
  rewrite NewProxy_run, Hname, Hes, Hen, Hproto. cbv zeta.
  destruct (CUpstream cfg) as [|v us] eqn:Hcfg; [done|].
  assert (Hcases :
    is_Some (MustParseDuration (Proxy_HashrateExpiration cfg)) ∧
    is_Some (MustParseDuration (Proxy_BlockRefreshInterval cfg)) ∧
    is_Some (MustParseDuration (Proxy_CleanInterval cfg)) ∧
    is_Some (MustParseDuration (UpstreamCheckInterval cfg)) ∧
    is_Some (MustParseDuration (Proxy_StateUpdateInterval cfg)) → False).
  { intros ([? ?] & [? ?] & [? ?] & [? ?] & [? ?]).
    destruct Hbad as [?|[?|[?|[?|?]]]]; congruence. }
  destruct (MustParseDuration (Proxy_HashrateExpiration cfg)) as [d|];
    [destruct (MustParseDuration (Proxy_BlockRefreshInterval cfg)) as [r|];
     [destruct (MustParseDuration (Proxy_CleanInterval cfg)) as [c|];
      [destruct (MustParseDuration (UpstreamCheckInterval cfg)) as [ch|];
       [destruct (MustParseDuration (Proxy_StateUpdateInterval cfg)) as [su|];
        [destruct Hcases; by repeat split|]|]|]|]|];
    (eexists; split; [done|]; split;
     [ rewrite !elem_of_app, !elem_of_cons; unfold listenerEvent; intuition congruence
     | unfold refreshes;
       rewrite !List.filter_app, headEvents_no_fetch; unfold listenerEvent;
       by case_bool_decide ]).
Qed.
End StartUpMore.

Lemma NewProxy_returns_iff_witness :
  (∃ tr s t, NewProxy (λ _, "") demo_parse (λ s, s) demo_cfg []
             = (tr, Done (s, t))) ∧
  ¬ (∃ tr s t, NewProxy (λ _, "") demo_parse (λ s, s) demo_cfg_no_upstream []
               = (tr, Done (s, t))).
Proof.
  split.
  - apply (NewProxy_returns_iff (λ _, "") demo_parse (λ s, s) demo_cfg).
    split; [|split; [discriminate|]].
    + intros [Hname|[Hoff|[[Hsp _]|[Hes _]]]];
        [discriminate Hname | discriminate Hoff | by apply Hsp
        | discriminate Hes].
    + repeat split; eexists; reflexivity.
  - intros Hrun.
    apply (NewProxy_returns_iff (λ _, "") demo_parse (λ s, s)
             demo_cfg_no_upstream) in Hrun as (_ & Hus & _).
    by apply Hus.
Defined.

Lemma NewProxy_builds_witness :
  ∃ tr s t,
    NewProxy (λ _, "") demo_parse (λ s, s) demo_cfg_es [] = (tr, Done (s, t)) ∧
    nonceSize s = 2 ∧ upstream s = 0 ∧ upstreams s = demo_clients.
Proof.
  assert (∃ tr s t,
            NewProxy (λ _, "") demo_parse (λ s, s) demo_cfg_es []
              = (tr, Done (s, t))) as (tr & s & t & Hrun).
  { eexists _, _, _. vm_compute. reflexivity. }
  destruct (NewProxy_builds _ _ _ _ _ _ _ _ Hrun)
    as (p & d & -> & _ & _ & _ & _ & Hidx & Hus & _ & Hnonce & _).
  exists tr, (set_hashrateExpiration p d), t.
  split; [exact Hrun|]. split; [exact Hnonce|]. split; [exact Hidx | exact Hus].
Defined.

Lemma NewProxy_arms_timers_witness :
  ∃ tr s t,
    NewProxy (λ _, "") demo_parse (λ s, s) demo_cfg [] = (tr, Done (s, t)) ∧
    refreshTimer t = 120000000 ∧ cleanTimer t = 60000000000 ∧
    checkTimer t = 5000000000 ∧ stateUpdateTimer t = 3000000000.
Proof.
  assert (∃ tr s t,
            NewProxy (λ _, "") demo_parse (λ s, s) demo_cfg []
              = (tr, Done (s, t))) as (tr & s & t & Hrun).
  { eexists _, _, _. vm_compute. reflexivity. }
  destruct (NewProxy_arms_timers _ _ _ _ _ _ _ _ Hrun)
    as (Hr & Hc & Hch & Hsu & _).
  vm_compute in Hr, Hc, Hch, Hsu.
  injection Hr as Hr. injection Hc as Hc.
  injection Hch as Hch. injection Hsu as Hsu.
  exists tr, s, t. split; [exact Hrun|]. by repeat split.
Defined.

Lemma NewProxy_steps_witness :
  ∃ tr s t,
    NewProxy (λ _, "") demo_parse (λ s, s) demo_cfg [] = (tr, Done (s, t)) ∧
    head (List.filter laterStep tr) = Some EvGoListenSP ∧
    length (List.filter laterStep tr) = 10%nat.
Proof.
  assert (∃ tr s t,
            NewProxy (λ _, "") demo_parse (λ s, s) demo_cfg []
              = (tr, Done (s, t))) as (tr & s & t & Hrun).
  { eexists _, _, _. vm_compute. reflexivity. }
  exists tr, s, t. split; [exact Hrun|].
  rewrite (NewProxy_steps _ _ _ _ _ _ _ Hrun). split; reflexivity.
Defined.

Lemma NewProxy_no_upstream_panics_witness :
  ∃ tr, NewProxy (λ _, "") demo_parse (λ s, s) demo_cfg_no_upstream []
        = (tr, Panicked).
Proof.
  destruct (NewProxy_no_upstream_panics (λ _, "") demo_parse (λ s, s)
              demo_cfg_no_upstream) as (tr & Hrun & _).
  - discriminate.
  - intros [Hes _]. discriminate Hes.
  - reflexivity.
  - exists tr. exact Hrun.
Defined.

Lemma NewProxy_bad_interval_panics_late_witness :
  ∃ tr, NewProxy (λ _, "") demo_parse (λ s, s) demo_cfg_bad_interval []
        = (tr, Panicked) ∧
        EvGoListenES ∈ tr ∧ refreshes tr = 1%nat.
Proof.
  destruct (NewProxy_bad_interval_panics_late (λ _, "") demo_parse (λ s, s)
              demo_cfg_bad_interval) as (tr & Hrun & Hlisten & Hfetch).
  - intros [Hname|[Hoff|[[_ Hes]|[_ Hlt]]]];
      [discriminate Hname | discriminate Hoff | by apply Hes
      | discriminate Hlt].
  - discriminate.
  - right. right. left. reflexivity.
  - exists tr. split; [exact Hrun|]. split; [exact Hlisten | exact Hfetch].
Defined.

(** ** The loops and the handlers together *)

Lemma checkUpstreams_in_range Check s :
  upstreams s ≠ [] →
  Z.of_nat (length (upstreams s)) ≤ 2 ^ 31 →
  ∃ s', checkUpstreams Check s = Some s' ∧
        s' = set_upstream s (upstream s') ∧
        0 ≤ upstream s' < Z.of_nat (length (upstreams s)).
Proof.
  intros Hne Hlen. unfold checkUpstreams.
  pose proof (sweepCandidate_range Check s Hne Hlen) as Hrange.
  destruct (slice_index_in_range (upstreams s) (sweepCandidate Check s) Hrange)
    as [c ->].
  case_bool_decide as Hneq.
  - by eexists.
  - exists s. rewrite set_upstream_same. split; [done|]. split; [done|].
    by rewrite Hneq.
Qed.

Section Loops.
Variable fetchBlockTemplate : ProxyServer → ProxyServer.
Variable SplitHostPort : string → string.
Hypothesis Hfetch : keeps_upstreams_and_work fetchBlockTemplate.
Variable us : list RPCClient.
Variable t0 : Timers.
Hypothesis Hus : us ≠ [].
Hypothesis Hlen : Z.of_nat (length us) ≤ 2 ^ 31.

Lemma turn_loops_ok x w :
  loops_ok us t0 w →
  ∃ w', turn fetchBlockTemplate SplitHostPort x w = Some w' ∧
        loops_ok us t0 w' ∧
        cleanTimer (timers w') =
          if isCleanTurn x then refreshIntv t0 else cleanTimer (timers w).
Proof.
  intros (Hups & Hidx & Hcl & Hri & Hci & Hchi & Hsi & Hrt & Hcht & Hst).
  destruct w as [t s ws]. simpl in *.
  destruct (Hfetch s) as (Hf1 & Hf2 & Hf3 & Hf4).
  destruct x as [ks| |Check|err|r|]; simpl.
  - destruct (cleanTick_closed ks t s Hcl) as (s' & Hrun & Hcl').
    pose proof Hrun as Hrun'. unfold cleanTick in Hrun'.
    destruct (cleanSweepIn ks (workDiff s, workStore s)) as [[m h]|]; [|done].
    rewrite Hrun. eexists. split; [done|].
    injection Hrun' as <-. unfold loops_ok. simpl. split_and!; try done; lia.
  - eexists. split; [done|]. unfold loops_ok. simpl.
    rewrite Hf1, Hf2, Hf3, Hf4. split_and!; try done; lia.
  - unfold checkTick. subst us.
    destruct (checkUpstreams_in_range Check s Hus Hlen) as (s' & -> & Hs' & Hidx').
    eexists. split; [done|]. unfold loops_ok. simpl.
    rewrite Hs'. simpl. rewrite Hs' in Hidx'. simpl in Hidx'. split_and!; try done; lia.
  - unfold stateUpdateTick.
    destruct (currentBlockTemplate s), err; eexists; (split; [done|]);
      unfold loops_ok; simpl; split_and!; try done; lia.
  - unfold notifyHandler.
    case_bool_decide; eexists; (split; [done|]); unfold loops_ok; simpl;
      rewrite ?Hf1, ?Hf2, ?Hf3, ?Hf4; split_and!; try done; lia.
  - unfold rpc. subst us.
    destruct (slice_index_in_range (upstreams s) (upstream s) Hidx) as [c ->].
    eexists. split; [done|]. unfold loops_ok. simpl. split_and!; try done; lia.
Qed.

Lemma turns_loops_ok xs : ∀ w,
  loops_ok us t0 w →
  ∃ w', turns fetchBlockTemplate SplitHostPort xs w = Some w' ∧
        loops_ok us t0 w' ∧
        cleanTimer (timers w') =
          if existsb isCleanTurn xs then refreshIntv t0 else cleanTimer (timers w).
Proof.
  induction xs as [|x xs IH]; intros w Hok; simpl.
  - by exists w.
  - destruct (turn_loops_ok x w Hok) as (w1 & -> & Hok1 & Hclean1).
    destruct (IH w1 Hok1) as (w' & Hrun & Hok' & Hclean).
    exists w'. split; [done|]. split; [done|].
    rewrite Hclean, Hclean1.
    by destruct (isCleanTurn x), (existsb isCleanTurn xs).
Qed.
End Loops.

(** A run of [NewProxy] that has returned has passed every test. *)
Ltac returned_run H :=
  rewrite NewProxy_run in H; cbv zeta in H;
  destruct (bool_decide (String.length _ = 0%nat)); [discriminate H|];
  destruct (PrimFloat.ltb _ _ && bool_decide _); [discriminate H|];
  destruct (CUpstream _) as [|v vs] eqn:Hcfg; [discriminate H|];
  destruct (negb (Stratum_Enabled _)); [discriminate H|];
  destruct (negb _ && negb _); [discriminate H|];
  destruct (_ (Proxy_HashrateExpiration _)) as [d|];
    [|discriminate H];
  destruct (_ (Proxy_BlockRefreshInterval _)) as [refreshI|]
    eqn:Hrefresh; [|discriminate H];
  destruct (_ (Proxy_CleanInterval _)) as [cleanI|]
    eqn:Hclean; [|discriminate H];
  destruct (_ (UpstreamCheckInterval _)) as [checkI|]
    eqn:Hcheck; [|discriminate H];
  destruct (_ (Proxy_StateUpdateInterval _)) as [stateUpdateI|]
    eqn:Hstate; [|discriminate H];
  injection H as <- <- <-.

(** X18.  Start the server with [NewProxy] and then run the turns of its
    four loops, requests to the notification handler and [rpc()] calls in
    any order (the code of this file only; [fetchBlockTemplate] is assumed
    to leave the upstreams and the work-difficulty map alone).  No turn
    panics; [rpc()] always has a client; the refresh, check and state-update
    timers are always armed with their own interval; and the clean timer is
    armed with the clean interval until the first turn of the cleanup loop
    and with the block-refresh interval from then on. *)
Theorem loops_never_panic
    GetTargetHex MustParseDuration fetchBlockTemplate SplitHostPort
    cfg tr s t xs :
  NewProxy GetTargetHex MustParseDuration fetchBlockTemplate cfg []
    = (tr, Done (s, t)) →
  Z.of_nat (length (CUpstream cfg)) ≤ 2 ^ 31 →
  keeps_upstreams_and_work fetchBlockTemplate →
  ∃ w',
    turns fetchBlockTemplate SplitHostPort xs (mkWorld t s []) = Some w' ∧
    upstreams (server w') = toClient <$> CUpstream cfg ∧
    is_Some (rpc (server w')) ∧
    MustParseDuration (Proxy_BlockRefreshInterval cfg)
      = Some (refreshTimer (timers w')) ∧
    MustParseDuration (UpstreamCheckInterval cfg)
      = Some (checkTimer (timers w')) ∧
    MustParseDuration (Proxy_StateUpdateInterval cfg)
      = Some (stateUpdateTimer (timers w')) ∧
    MustParseDuration
      (if existsb isCleanTurn xs
       then Proxy_BlockRefreshInterval cfg else Proxy_CleanInterval cfg)
      = Some (cleanTimer (timers w')).
Proof.
  intros Hrun Hlen Hfetch. returned_run Hrun.
  set (p := set_sessions _ true).
  destruct (Hfetch p) as (Hf1 & Hf2 & Hf3 & Hf4).
  rewrite ?Hcfg in Hlen.
  assert (Hne : toClient <$> v :: vs ≠ []) by discriminate.
  assert (Hlen' : Z.of_nat (length (toClient <$> v :: vs)) ≤ 2 ^ 31)
    by by rewrite length_fmap.
  destruct (turns_loops_ok fetchBlockTemplate SplitHostPort Hfetch
              (toClient <$> v :: vs)
              (mkTimers refreshI cleanI checkI stateUpdateI
                        refreshI cleanI checkI stateUpdateI)
              Hne Hlen' xs
              (mkWorld (mkTimers refreshI cleanI checkI stateUpdateI
                                 refreshI cleanI checkI stateUpdateI)
                 (set_hashrateExpiration (fetchBlockTemplate p) d) []))
    as (w' & Hturns & Hok & Hcleaned).
  { unfold loops_ok. simpl. rewrite Hf1, Hf2, Hf3, Hf4. subst p. simpl.
    split_and!; try done; lia. }
  destruct Hok as (Hups & Hidx & _ & _ & _ & _ & _ & Hrt & Hcht & Hst).
  exists w'. split; [done|]. split; [done|]. split.
  { unfold rpc. rewrite Hups. by apply slice_index_in_range. }
  simpl in *. rewrite Hrt, Hcht, Hst, Hcleaned.
  by destruct (existsb isCleanTurn xs).
Qed.

(** A clean interval of 60s and a refresh interval of 120ms: a schedule with
    two sweeps, a refresh, a health check that fails over to B, a failed
    state update, a notification and [rpc()] calls ends with the clean timer
    armed for 120ms. *)
Lemma loops_never_panic_witness :
  ∃ tr s t w',
    NewProxy (λ _, "") demo_parse demo_fetch demo_cfg [] = (tr, Done (s, t)) ∧
    turns demo_fetch demo_host
      [TurnRpc; TurnClean []; TurnRefresh; TurnCheck demo_check_B; TurnRpc;
       TurnStateUpdate (Some "timeout"); TurnClean [];
       TurnNotify (mkRequest "POST" "10.0.0.7:51234"); TurnRpc]
      (mkWorld t s []) = Some w' ∧
    cleanTimer (timers w') = 120000000 ∧
    checkTimer (timers w') = 5000000000.
Proof.
  assert (∃ tr s t,
            NewProxy (λ _, "") demo_parse demo_fetch demo_cfg []
              = (tr, Done (s, t))) as (tr & s & t & Hrun).
  { eexists _, _, _. vm_compute. reflexivity. }
  destruct (loops_never_panic (λ _, "") demo_parse demo_fetch demo_host
              demo_cfg tr s t
              [TurnRpc; TurnClean []; TurnRefresh; TurnCheck demo_check_B;
               TurnRpc; TurnStateUpdate (Some "timeout"); TurnClean [];
               TurnNotify (mkRequest "POST" "10.0.0.7:51234"); TurnRpc] Hrun)
    as (w' & Hturns & _ & _ & _ & Hcheck & _ & Hclean).
  - simpl. lia.
  - intros s0. repeat split.
  - vm_compute in Hcheck, Hclean.
    injection Hcheck as Hcheck. injection Hclean as Hclean.
    exists tr, s, t, w'. split; [exact Hrun|]. split; [exact Hturns|].
    split; [symmetry; exact Hclean | symmetry; exact Hcheck].
Defined.

(** ** Calls of [rpc()] during a sweep *)

Lemma run_rpc_calls n rest m :
  is_Some (rpc (srv m)) →
  run (replicate n ActRpc ++ rest) m = run rest m.
Proof.
  intros [c Hc]. induction n as [|n IH]; [done|].
  simpl. rewrite Hc. by destruct (pending m).
Qed.

(** X19.  Calls of [rpc()] that come between the comparison and the store of
    a sweep neither panic nor change what the sweep does, as long as the
    index was valid when the sweep started: the schedule ends as
    [checkUpstreams] alone does. *)
Theorem rpc_calls_do_not_disturb_sweep Check n s :
  is_Some (rpc s) →
  run ([ActScan Check] ++ replicate n ActRpc ++ [ActStore]) (mkMachine s None)
  = (λ s', mkMachine s' None) <$> checkUpstreams Check s.
Proof.
  intros Hrpc. unfold checkUpstreams. simpl.
  case_bool_decide; rewrite run_rpc_calls by done; simpl; [|done].
  by destruct (slice_index (upstreams s) (sweepCandidate Check s)).
Qed.

Lemma rpc_calls_do_not_disturb_sweep_witness :
  run [ActScan demo_check_B; ActRpc; ActRpc; ActRpc; ActStore]
      (mkMachine demo_srv None)
  = Some (mkMachine (set_upstream demo_srv 1) None).
Proof.
  change (run ([ActScan demo_check_B] ++ replicate 3 ActRpc ++ [ActStore])
            (mkMachine demo_srv None)
          = Some (mkMachine (set_upstream demo_srv 1) None)).
  rewrite (rpc_calls_do_not_disturb_sweep demo_check_B 3 demo_srv).
  - reflexivity.
  - eexists. reflexivity.
Defined.
